(** * Lithospheric flexure component: a shallow embedding of
      [landlab/components/flexure/flexure.py] and the properties of its
      kernel table, solvers, constructor and [eet] setter. *)

From Stdlib Require Import Floats Reals Lra.
From stdpp Require Import base strings list gmap.

#[local] Set Warnings "-inexact-float".

(** ** Arithmetic interface

    The component computes on numpy [float64] values.  The embedding is
    written once over an interface of the operations the source uses, so
    that every definition below can be run on IEEE binary64 numbers
    ([float64]) and reasoned about in exact real arithmetic ([real_num]). *)

Class Num (F : Type) := {
  Fzero : F;                      (* 0.0 *)
  Ftwo : F;                       (* 2 *)
  Fpi : F;                        (* np.pi *)
  Fof_nat : nat -> F;             (* an entry of np.arange, promoted to float *)
  Fadd : F -> F -> F;
  Fmul : F -> F -> F;
  Fdiv : F -> F -> F;
  Fsqrt : F -> F;                 (* np.sqrt *)
  Fleb : F -> F -> bool;          (* x <= y *)
  Fneqb : F -> F -> bool;         (* x != y *)
}.

(** [x ** 2] *)
Definition Fsq `{Num F} (x : F) : F := Fmul x x.

(** Exceptions that can leave the component. *)
Inductive exn :=
| ValueError (msg : string)       (* raise ValueError(msg) in flexure.py *)
| FieldError (name : string)      (* grid.at_node[name] on a missing field *)
| ShapeError                      (* numpy reshape or broadcast on mismatched sizes *)
| ParameterError.                 (* raised inside get_flexure_parameter *)

(** The two failures the component raises itself. *)
Definition UnsupportedMethod (method : string) : exn :=
  ValueError (method +:+ ": method not understood").
Definition InvalidParameter : exn :=
  ValueError "Effective elastic thickness must be positive.".

(** Collaborators that live outside [flexure.py]: scipy's [kei] and
    [funcs.get_flexure_parameter(eet, youngs, n_dim, gamma_mantle)].  Both
    are pure; the latter may raise, which is [None] here. *)
Class Externals (F : Type) := {
  kei : F -> F;
  get_flexure_parameter : F -> F -> nat -> F -> option F;
}.

(** ** Arrays

    A one-dimensional ndarray is its row-major buffer; a two-dimensional
    one is the list of its rows. *)

Section Arrays.
Context {A : Type}.

(** The rows of a [rows] x [cols] view of a buffer. *)
Fixpoint chunks (cols rows : nat) (a : list A) : list (list A) :=
  match rows with
  | 0 => []
  | S n => take cols a :: chunks cols n (drop cols a)
  end.

(** [a.reshape(shape)]: fails unless the sizes agree. *)
Definition reshape (shape : nat * nat) (a : list A) : exn + list (list A) :=
  if decide (length a = fst shape * snd shape)
  then inr (chunks (snd shape) (fst shape) a)
  else inl ShapeError.

Definition map2d {B} (f : A -> B) (a : list (list A)) : list (list B) :=
  map (map f) a.

Definition zip2d {B C} (f : A -> B -> C)
    (a : list (list A)) (b : list (list B)) : list (list C) :=
  zip_with (zip_with f) a b.

(** [a[i, j]], with [d] standing for a read outside the array. *)
Definition get2d (d : A) (a : list (list A)) (i j : nat) : A :=
  nth j (nth i a []) d.

(** [np.meshgrid(xs, ys)] *)
Definition meshgrid (xs ys : list A) : list (list A) * list (list A) :=
  (map (fun _ => xs) ys, map (fun y => map (fun _ => y) xs) ys).
End Arrays.

(** ** The kernel table *)

Section Kernel.
Context {F : Type} `{Num F} `{Externals F}.

(** [np.arange(n) * step] *)
Definition arange_times (n : nat) (step : F) : list F :=
  map (fun k => Fmul (Fof_nat k) step) (seq 0 n).

(** [Flexure._create_kei_func_grid(shape, xy_spacing, alpha)] *)
Definition create_kei_func_grid
    (shape : nat * nat) (xy_spacing : F * F) (alpha : F) : list (list F) :=
  let '(dx, dy) :=
    meshgrid (arange_times (snd shape) (snd xy_spacing))
             (arange_times (fst shape) (fst xy_spacing)) in
  map2d kei
    (map2d (fun x => Fdiv x alpha)
       (map2d Fsqrt (zip2d Fadd (map2d Fsq dx) (map2d Fsq dy)))).

(** The entry computed for row [i] and column [j], in the order in which
    the source adds the squares. *)
Definition kernel_entry (dy dx alpha : F) (i j : nat) : F :=
  kei (Fdiv (Fsqrt (Fadd (Fsq (Fmul (Fof_nat j) dx))
                         (Fsq (Fmul (Fof_nat i) dy)))) alpha).
End Kernel.

(** ** Program state

    The component object holds a reference to the grid it was built on
    ([flex.grid is grid]); the grid binds field names to arrays, and arrays
    are shared mutable buffers.  The state therefore has three parts: the
    attributes of [self], the grid object, and the store of array buffers
    addressed by location, so that two names bound to one buffer alias. *)

Definition loc := nat.

Record RasterModelGrid (F : Type) := {
  shape : nat * nat;              (* (rows, cols) *)
  dy : F;
  dx : F;
  at_node : gmap string loc;      (* field name -> array *)
}.
Arguments shape {F}.
Arguments dy {F}.
Arguments dx {F}.
Arguments at_node {F}.

Record Flexure (F : Type) := {
  _youngs : F;
  _method : string;
  _rho_mantle : F;
  _gravity : F;
  _eet : F;
  _n_procs : nat;
  _r : list (list F);             (* the kernel table *)
}.
Arguments _youngs {F}.
Arguments _method {F}.
Arguments _rho_mantle {F}.
Arguments _gravity {F}.
Arguments _eet {F}.
Arguments _n_procs {F}.
Arguments _r {F}.

Record State (F : Type) := {
  self : Flexure F;
  grid : RasterModelGrid F;       (* self._grid *)
  heap : gmap loc (list F);
}.
Arguments self {F}.
Arguments grid {F}.
Arguments heap {F}.

(** A computation reads and writes the state and either returns or raises;
    the state reached when an exception is raised is kept. *)
Definition ST (F A : Type) : Type := State F -> State F * (exn + A).

#[export] Instance ST_ret {F} : MRet (ST F) := fun A x s => (s, inr x).
#[export] Instance ST_bind {F} : MBind (ST F) := fun A B f m s =>
  match m s with
  | (s', inr x) => f x s'
  | (s', inl e) => (s', inl e)
  end.

Definition raise {F A} (e : exn) : ST F A := fun s => (s, inl e).
Definition gets {F A} (f : State F -> A) : ST F A := fun s => (s, inr (f s)).
Definition modify {F} (f : State F -> State F) : ST F unit :=
  fun s => (f s, inr tt).
Definition lift {F A} (r : exn + A) : ST F A := fun s => (s, r).

Definition with_self {F} (f : Flexure F -> Flexure F) (s : State F) : State F :=
  {| self := f (self s); grid := grid s; heap := heap s |}.
Definition with_heap {F}
    (f : gmap loc (list F) -> gmap loc (list F)) (s : State F) : State F :=
  {| self := self s; grid := grid s; heap := f (heap s) |}.
Definition with_at_node {F}
    (f : gmap string loc -> gmap string loc) (s : State F) : State F :=
  {| self := self s;
     grid := {| shape := shape (grid s); dy := dy (grid s); dx := dx (grid s);
                at_node := f (at_node (grid s)) |};
     heap := heap s |}.

Definition set_youngs {F} (v : F) (o : Flexure F) : Flexure F :=
  {| _youngs := v; _method := _method o; _rho_mantle := _rho_mantle o;
     _gravity := _gravity o; _eet := _eet o; _n_procs := _n_procs o;
     _r := _r o |}.
Definition set_method {F} (v : string) (o : Flexure F) : Flexure F :=
  {| _youngs := _youngs o; _method := v; _rho_mantle := _rho_mantle o;
     _gravity := _gravity o; _eet := _eet o; _n_procs := _n_procs o;
     _r := _r o |}.
Definition set_rho_mantle {F} (v : F) (o : Flexure F) : Flexure F :=
  {| _youngs := _youngs o; _method := _method o; _rho_mantle := v;
     _gravity := _gravity o; _eet := _eet o; _n_procs := _n_procs o;
     _r := _r o |}.
Definition set_gravity {F} (v : F) (o : Flexure F) : Flexure F :=
  {| _youngs := _youngs o; _method := _method o; _rho_mantle := _rho_mantle o;
     _gravity := v; _eet := _eet o; _n_procs := _n_procs o; _r := _r o |}.
Definition set_eet {F} (v : F) (o : Flexure F) : Flexure F :=
  {| _youngs := _youngs o; _method := _method o; _rho_mantle := _rho_mantle o;
     _gravity := _gravity o; _eet := v; _n_procs := _n_procs o; _r := _r o |}.
Definition set_n_procs {F} (v : nat) (o : Flexure F) : Flexure F :=
  {| _youngs := _youngs o; _method := _method o; _rho_mantle := _rho_mantle o;
     _gravity := _gravity o; _eet := _eet o; _n_procs := v; _r := _r o |}.
Definition set_r {F} (v : list (list F)) (o : Flexure F) : Flexure F :=
  {| _youngs := _youngs o; _method := _method o; _rho_mantle := _rho_mantle o;
     _gravity := _gravity o; _eet := _eet o; _n_procs := _n_procs o;
     _r := v |}.

(** Array store primitives. *)
Definition read {F} (l : loc) : ST F (list F) :=
  gets (fun s => default [] (heap s !! l)).
Definition write {F} (l : loc) (a : list F) : ST F unit :=
  modify (with_heap (insert l a)).
Definition alloc {F} (a : list F) : ST F loc := fun s =>
  let l := fresh (dom (heap s)) in (with_heap (insert l a) s, inr l).

(** [grid.at_node[name]] *)
Definition at_node_get {F} (name : string) : ST F loc := fun s =>
  match at_node (grid s) !! name with
  | Some l => (s, inr l)
  | None => (s, inl (FieldError name))
  end.

Definition load_name : string := "lithosphere__overlying_pressure_increment".
Definition deflection_name : string := "lithosphere_surface__elevation_increment".

(** ** The parallel convolution dispatcher *)

Section Dispatcher.
Context {F : Type} `{Num F}.

Definition absdiff (a b : nat) : nat := (a - b) + (b - a).

(** All nodes of a [rows] x [cols] grid in row-major order. *)
Definition nodes (rows cols : nat) : list (nat * nat) :=
  flat_map (fun i => map (pair i) (seq 0 cols)) (seq 0 rows).

(** [2 / (pi * alpha ** 2 * gamma_mantle)] *)
Definition green_constant (alpha gamma_mantle : F) : F :=
  Fdiv Ftwo (Fmul (Fmul Fpi (Fsq alpha)) gamma_mantle).

(** One source node's contribution added to a running sum; a source whose
    load is zero is skipped. *)
Definition add_source (load r : list (list F)) (c : F) (q : nat * nat)
    (acc : F) (p : nat * nat) : F :=
  let f := get2d Fzero load (fst p) (snd p) in
  if Fneqb f Fzero
  then Fadd acc (Fmul (Fmul f c)
                   (get2d Fzero r (absdiff (fst q) (fst p))
                                  (absdiff (snd q) (snd p))))
  else acc.

(** The deflection of target node [q]: the sum over all loaded sources. *)
Definition deflection_at (load r : list (list F)) (c : F)
    (rows cols : nat) (q : nat * nat) : F :=
  fold_left (add_source load r c q) (nodes rows cols) Fzero.

(** Row [qi] of the deflection. *)
Definition deflection_row (load r : list (list F)) (c : F)
    (rows cols : nat) (qi : nat) : list F :=
  map (fun qj => deflection_at load r c rows cols (qi, qj)) (seq 0 cols).

(** The target rows [lo, hi) of each of [n_procs] workers: contiguous
    blocks of ceil(rows / n_procs) rows. *)
Definition row_blocks (rows n_procs : nat) : list (nat * nat) :=
  let chunk := (rows + n_procs - 1) / n_procs in
  map (fun k => (Nat.min rows (k * chunk), Nat.min rows ((k + 1) * chunk)))
      (seq 0 n_procs).

(** What one worker computes for its block. *)
Definition worker (load r : list (list F)) (c : F) (rows cols : nat)
    (blk : nat * nat) : list (list F) :=
  map (deflection_row load r c rows cols) (seq (fst blk) (snd blk - fst blk)).

(** A worker's rows copied back into the output at row [lo]. *)
Definition copy_back (w : list (list F)) (lo : nat) (block : list (list F))
    : list (list F) :=
  take lo w ++ block ++ drop (lo + length block) w.

(** The workers' blocks merged into [w] in the order [blocks] in which
    the workers finish. *)
Definition run_workers (load r : list (list F)) (c : F) (rows cols : nat)
    (blocks : list (nat * nat)) (w : list (list F)) : list (list F) :=
  fold_left (fun w blk => copy_back w (fst blk) (worker load r c rows cols blk))
            blocks w.

(** Modelled from the spec: [cfuncs.subside_grid_in_parallel(w, load, r,
    alpha, gamma_mantle, n_procs)], the compiled dispatcher, which is not
    part of [flexure.py].  Following section 4.4 of the specification, the
    target rows are split into [n_procs] contiguous blocks, each worker
    computes for every target node of its block the sum over the loaded
    source nodes of [load[p] * (2 / (pi * alpha**2 * gamma_mantle)) *
    r[|qi - pi|, |qj - pj|]], and the blocks are copied back into [w].
    The result is the new content of [w]. *)
Definition subside_grid_in_parallel (w load r : list (list F))
    (alpha gamma_mantle : F) (n_procs : nat) : list (list F) :=
  let rows := length w in
  let cols := length (hd [] w) in
  run_workers load r (green_constant alpha gamma_mantle) rows cols
              (row_blocks rows n_procs) w.

(** A block that lies inside the output. *)
Definition block_ok (rows : nat) (blk : nat * nat) : Prop :=
  fst blk <= snd blk <= rows.

(** Row [i] belongs to one of the blocks. *)
Definition covered (blocks : list (nat * nat)) (i : nat) : Prop :=
  Exists (fun blk => fst blk <= i < snd blk) blocks.

(** All rows computed in one piece. *)
Definition deflection_rows (load r : list (list F)) (c : F)
    (rows cols : nat) : list (list F) :=
  map (deflection_row load r c rows cols) (seq 0 rows).
End Dispatcher.

(** ** The component *)

Section Component.
Context {F : Type} `{Num F} `{Externals F}.

(** The solver called by [subside_loads]; [subside_grid_in_parallel] in
    the component itself. *)
Variable dispatch :
  list (list F) -> list (list F) -> list (list F) -> F -> F -> nat ->
  list (list F).

(** [Flexure.gamma_mantle] *)
Definition gamma_mantle (o : Flexure F) : F :=
  Fmul (_rho_mantle o) (_gravity o).

(** [Flexure.alpha] *)
Definition alpha (o : Flexure F) : exn + F :=
  match get_flexure_parameter (_eet o) (_youngs o) 2 (gamma_mantle o) with
  | Some a => inr a
  | None => inl ParameterError
  end.

(** [self._r = self._create_kei_func_grid(self._grid.shape,
    (self._grid.dy, self._grid.dx), self.alpha)] *)
Definition rebuild_kernel : ST F unit :=
  g ← gets grid;
  o ← gets self;
  a ← lift (alpha o);
  modify (with_self (set_r (create_kei_func_grid (shape g) (dy g, dx g) a))).

(** [Flexure.eet], the setter *)
Definition eet_setter (new_val : F) : ST F unit :=
  if Fleb new_val Fzero then raise InvalidParameter
  else
    modify (with_self (set_eet new_val));;
    rebuild_kernel.

(** Modelled from the spec: [Component.initialize_output_fields], part of
    the component framework and not of [flexure.py].  The output field is
    added to the grid, filled with zeros, unless the grid already has a
    field of that name. *)
Definition initialize_output_fields : ST F unit := fun s =>
  match at_node (grid s) !! deflection_name with
  | Some _ => (s, inr tt)
  | None =>
      let l := fresh (dom (heap s)) in
      let n := fst (shape (grid s)) * snd (shape (grid s)) in
      (with_at_node (insert deflection_name l)
         (with_heap (insert l (replicate n Fzero)) s), inr tt)
  end.

(** [Flexure.__init__] on a newly allocated object, whose attributes hold
    nothing yet: every attribute is assigned before it is read.
    [super().__init__(grid)] binds [self._grid], which is [grid] of the
    state. *)
Definition Flexure_init (eet youngs : F) (method : string)
    (rho_mantle gravity : F) (n_procs : nat) : ST F unit :=
  if negb (bool_decide (method ∈ ["airy"; "flexure"]))
  then raise (UnsupportedMethod method)
  else
    modify (with_self (set_youngs youngs));;
    modify (with_self (set_method method));;
    modify (with_self (set_rho_mantle rho_mantle));;
    modify (with_self (set_gravity gravity));;
    eet_setter eet;;
    modify (with_self (set_n_procs n_procs));;
    initialize_output_fields;;
    rebuild_kernel.

(** The four attributes that [__init__] assigns before [eet]. *)
Definition first_attributes (youngs : F) (method : string) (rho_mantle gravity : F)
    (o : Flexure F) : Flexure F :=
  set_gravity gravity
    (set_rho_mantle rho_mantle (set_method method (set_youngs youngs o))).

(** [Flexure.subside_loads(loads, out)], given the contents of [loads].
    The source reads [loads] once, in [load * dx * dy], before anything is
    written. *)
Definition subside_loads_of_via (loads_buf : list F) (out : option loc)
    : ST F loc :=
  g ← gets grid;
  out ← match out with
        | None => alloc (replicate (fst (shape g) * snd (shape g)) Fzero)
        | Some l => mret l
        end;
  out_buf ← read out;
  dz ← lift (reshape (shape g) out_buf);
  load ← lift (reshape (shape g) loads_buf);
  let force := map2d (fun x => Fmul (Fmul x (dx g)) (dy g)) load in
  o ← gets self;
  a ← lift (alpha o);
  write out
    (concat (dispatch dz force (_r o) a (gamma_mantle o) (_n_procs o)));;
  mret out.

(** [subside_loads] from the point where the output array [out] is known;
    [subside_loads_of_via] is this after its first two lines. *)
Definition subside_into (loads_buf : list F) (out : loc) : ST F loc :=
  fun s =>
  let g := grid s in
  let o := self s in
  match reshape (shape g) (default [] (heap s !! out)) with
  | inl e => (s, inl e)
  | inr dz =>
      match reshape (shape g) loads_buf with
      | inl e => (s, inl e)
      | inr load =>
          match alpha o with
          | inl e => (s, inl e)
          | inr a =>
              (with_heap
                 (insert out
                    (concat
                       (dispatch dz
                          (map2d (fun x => Fmul (Fmul x (dx g)) (dy g)) load)
                          (_r o) a (gamma_mantle o) (_n_procs o))))
                 s,
               inr out)
          end
      end
  end.

(** The deflection field of the flexure method as one expression: every
    row of [deflection_rows] for the load scaled by the cell area. *)
Definition flexure_solution (g : RasterModelGrid F) (o : Flexure F) (a : F)
    (loads_buf : list F) : list F :=
  concat
    (deflection_rows
       (map2d (fun x => Fmul (Fmul x (dx g)) (dy g))
              (chunks (snd (shape g)) (fst (shape g)) loads_buf))
       (_r o) (green_constant a (gamma_mantle o))
       (fst (shape g)) (snd (shape g))).

(** [Flexure.subside_loads(loads, out)] called on an array of the store. *)
Definition subside_loads_via (loads : loc) (out : option loc) : ST F loc :=
  loads_buf ← read loads;
  subside_loads_of_via loads_buf out.

(** [dst[:] = src] *)
Definition assign_all (dst : loc) (src : list F) : ST F unit :=
  old ← read dst;
  if decide (length src = length old) then write dst src
  else if decide (length src = 1)
       then write dst (replicate (length old) (hd Fzero src))
       else raise ShapeError.

(** [Flexure.update()].  The copy [new_load] is held by no one else and
    is a value. *)
Definition update_via : ST F unit :=
  load ← at_node_get load_name;
  deflection ← at_node_get deflection_name;
  new_load ← read load;
  old ← read deflection;
  write deflection (replicate (length old) Fzero);;
  o ← gets self;
  if String.eqb (_method o) "airy"
  then assign_all deflection (map (fun x => Fdiv x (gamma_mantle o)) new_load)
  else subside_loads_of_via new_load (Some deflection);; mret tt.
End Component.

Section Solver.
Context {F : Type} `{Num F} `{Externals F}.

Definition subside_loads : loc -> option loc -> ST F loc :=
  subside_loads_via subside_grid_in_parallel.

Definition update : ST F unit := update_via subside_grid_in_parallel.
End Solver.

(** ** Interpretations of the arithmetic *)

(** IEEE binary64, the arithmetic the component runs on. *)
Definition float64 : Num float := {|
  Fzero := 0%float;
  Ftwo := 2%float;
  Fpi := 0x1.921fb54442d18p+1%float;
  Fof_nat := fun n => PrimFloat.of_uint63 (Uint63.of_Z (Z.of_nat n));
  Fadd := PrimFloat.add;
  Fmul := PrimFloat.mul;
  Fdiv := PrimFloat.div;
  Fsqrt := PrimFloat.sqrt;
  Fleb := PrimFloat.leb;
  Fneqb := fun x y => negb (PrimFloat.eqb x y);
|}.

(** Exact real arithmetic. *)
Definition real_num : Num R := {|
  Fzero := 0%R;
  Ftwo := 2%R;
  Fpi := PI;
  Fof_nat := INR;
  Fadd := Rplus;
  Fmul := Rmult;
  Fdiv := Rdiv;
  Fsqrt := sqrt;
  Fleb := fun x y => if Rle_dec x y then true else false;
  Fneqb := fun x y => if Req_dec_T x y then false else true;
|}.

(** Modelled from the spec: [funcs.get_flexure_parameter], which is not
    part of [flexure.py].  Section 4.1 of the specification gives the
    rigidity [D = youngs * eet**3 / (12 * (1 - nu**2))], the parameter
    [(4 * D / gamma_mantle) ** (1/4)] and the failure for a non-positive
    [eet] or [youngs]; Poisson's ratio [nu], which it leaves open, is 1/4
    here, so that [1 - nu**2] is 15/16. *)
Definition flexure_parameter `{Num F}
    (eet youngs : F) (n_dim : nat) (gamma_mantle : F) : option F :=
  if Fleb eet Fzero || Fleb youngs Fzero then None
  else
    let D := Fdiv (Fmul youngs (Fmul eet (Fmul eet eet)))
                  (Fmul (Fof_nat 12) (Fdiv (Fof_nat 15) (Fof_nat 16))) in
    Some (Fsqrt (Fsqrt (Fdiv (Fmul (Fof_nat 4) D) gamma_mantle))).

(** Sample collaborators for running the model.  The Kelvin function is
    replaced by [-(pi/4) / (1 + x**2)], which agrees with it at 0 and decays;
    no property below depends on that choice. *)
Definition float64_externals : Externals float := {|
  kei := fun x => (- (0x1.921fb54442d18p+1 / 4) / (1 + x * x))%float;
  get_flexure_parameter := @flexure_parameter float float64;
|}.

Definition real_externals : Externals R := {|
  kei := fun x => (- (PI / 4) / (1 + x * x))%R;
  get_flexure_parameter := @flexure_parameter R real_num;
|}.


(** ** The summation formula of the specification *)

Section SpecFormula.
Context {F : Type} `{Num F}.

(** The deflection of target node [q] in the words of section 4.4 of the
    specification: the sum, over the nodes [p] whose load is not zero, of
    [load[p] * dx * dy * (2 / (pi * alpha**2 * gamma_mantle)) *
    KernelTable[|qi - pi|, |qj - pj|]], with [load] the node field in
    row-major order. *)
Definition spec_deflection (load : list F) (dx dy alpha gamma_mantle : F)
    (KernelTable : list (list F)) (rows cols : nat) (q : nat * nat) : F :=
  fold_left
    (fun acc p =>
       Fadd acc
         (Fmul
            (Fmul (Fmul (Fmul (nth (fst p * cols + snd p) load Fzero) dx) dy)
                  (Fdiv Ftwo (Fmul (Fmul Fpi (Fsq alpha)) gamma_mantle)))
            (get2d Fzero KernelTable (absdiff (fst q) (fst p))
                                     (absdiff (snd q) (snd p)))))
    (List.filter (fun p => Fneqb (nth (fst p * cols + snd p) load Fzero) Fzero)
                 (nodes rows cols))
    Fzero.

(** The laws of exact arithmetic that relate the formula to the code. *)
Class ExactArith : Prop := {
  Fadd_comm : forall x y : F, Fadd x y = Fadd y x;
  Fadd_0_r : forall x : F, Fadd x Fzero = x;
  Fmul_0_l : forall x : F, Fmul Fzero x = Fzero;
  Fneqb_false : forall x y : F, Fneqb x y = false <-> x = y;
}.
End SpecFormula.
Arguments ExactArith F {_}.

Section Invariant.
Context {F : Type} `{Num F} `{Externals F}.

(** The kernel table is the one built from the grid's shape and spacing
    and from the flexural parameter of the current attributes. *)
Definition kernel_in_sync (s : State F) : Prop :=
  exists a, alpha (self s) = inr a /\
    _r (self s) =
      create_kei_func_grid (shape (grid s)) (dy (grid s), dx (grid s)) a.

(** The state is the same apart from the buffer at [l]. *)
Definition same_but (l : loc) (s s' : State F) : Prop :=
  self s' = self s /\ grid s' = grid s /\
  forall l', l' <> l -> heap s' !! l' = heap s !! l'.
End Invariant.

(** ** Sample states

    A 5 x 4 grid with 10 km spacing, as in the docstring of the module,
    over binary64 and over the reals. *)

Module Sample.
Section Generic.
Context {F : Type} `{Num F}.

Definition grid54 (spacing : F) (fields : gmap string loc)
    : RasterModelGrid F :=
  {| shape := (5, 4); dy := spacing; dx := spacing; at_node := fields |}.

(** An object whose attributes have not been assigned. *)
Definition blank : Flexure F :=
  {| _youngs := Fzero; _method := ""; _rho_mantle := Fzero;
     _gravity := Fzero; _eet := Fzero; _n_procs := 0; _r := [] |}.

(** The grid with its load field, at location 0, before a component is
    built on it. *)
Definition fresh_state (spacing : F) (load : list F) : State F :=
  {| self := blank;
     grid := grid54 spacing {[ load_name := 0 ]};
     heap := {[ 0 := load ]} |}.
End Generic.

Definition gm : float := (3300.0 * 9.80665)%float.

(** The interior nodes loaded with [gamma_mantle]. *)
Definition interior_load : list float :=
  [0; 0; 0; 0;  0; gm; gm; 0;  0; gm; gm; 0;  0; gm; gm; 0;  0; 0; 0; 0]%float.

(** A single load of 1e9 Pa at node 4. *)
Definition point_load : list float :=
  [0; 0; 0; 0;  1e9; 0; 0; 0;  0; 0; 0; 0;  0; 0; 0; 0;  0; 0; 0; 0]%float.

Definition construct (method : string) (n_procs : nat) (load : list float)
    : State float * (exn + unit) :=
  @Flexure_init float float64 float64_externals
    65e3%float 7e10%float method 3300.0%float 9.80665%float n_procs
    (@fresh_state float float64 1.0e4%float load).

(** The states reached by [Flexure(grid, method=...)]. *)
Definition airy_state (load : list float) : State float :=
  fst (construct "airy" 1 load).
Definition flexure_state (n_procs : nat) (load : list float) : State float :=
  fst (construct "flexure" n_procs load).
(** A 2 x 2 grid over the reals with a flexure component of unit
    constants and two workers; the load field is at location 0. *)
Definition real_state : State R :=
  {| self := {| _youngs := 1%R; _method := "flexure"; _rho_mantle := 1%R;
                _gravity := 1%R; _eet := 1%R; _n_procs := 2;
                _r := @create_kei_func_grid R real_num real_externals
                        (2, 2) (1%R, 1%R) 1%R |};
     grid := {| shape := (2, 2); dy := 1%R; dx := 1%R;
                at_node := {[ load_name := 0 ]} |};
     heap := {[ 0 := [1; 0; 0; 2]%R ]} |}.

(** Its flexural parameter. *)
Definition real_alpha : R :=
  sqrt (sqrt (INR 4 * (1 * (1 * (1 * 1)) / (INR 12 * (INR 15 / INR 16)))
              / (1 * 1))).
End Sample.

(** ** The read-only properties of the component *)

Section Getters.
Context {F : Type} `{Num F}.

(** [Flexure.eet], the getter *)
Definition Flexure_eet (o : Flexure F) : F := _eet o.

(** [Flexure.youngs] *)
Definition Flexure_youngs (o : Flexure F) : F := _youngs o.

(** [Flexure.rho_mantle] *)
Definition Flexure_rho_mantle (o : Flexure F) : F := _rho_mantle o.

(** [Flexure.gravity] *)
Definition Flexure_gravity (o : Flexure F) : F := _gravity o.

(** [Flexure.method] *)
Definition Flexure_method (o : Flexure F) : string := _method o.

(** The stored elastic thickness passes the setter's check. *)
Definition eet_positive (s : State F) : Prop :=
  Fleb (_eet (self s)) Fzero = false.

(** The number of nodes of the grid. *)
Definition number_of_nodes (g : RasterModelGrid F) : nat :=
  fst (shape g) * snd (shape g).

(** The attributes of a component built by [__init__] with a table [K]. *)
Definition built (eet youngs : F) (method : string) (rho_mantle gravity : F)
    (n_procs : nat) (K : list (list F)) : Flexure F :=
  {| _youngs := youngs; _method := method; _rho_mantle := rho_mantle;
     _gravity := gravity; _eet := eet; _n_procs := n_procs; _r := K |}.
End Getters.

(** Further sample states over binary64. *)
Module Cases.
(** The sample Airy component with a load field of three entries. *)
Definition short_load_state : State float :=
  with_heap (insert 0 [1; 2; 3]%float)
    (Sample.airy_state Sample.interior_load).

(** The sample Airy component with a negative Young's modulus, for which
    the sample parameter model raises. *)
Definition negative_youngs_state : State float :=
  with_self (set_youngs (-1)%float)
    (Sample.airy_state Sample.interior_load).

(** The sample Airy component with an all-zero load. *)
Definition zero_load_state : State float :=
  Sample.airy_state (replicate 20 0%float).
End Cases.

(** ** Two other solvers

    [subside_loads] hands its output array to the solver as it is.  These
    two stand-ins for the solver show what that array holds when the
    solver starts. *)

Section OtherSolvers.
Context {F : Type} `{Num F}.


End OtherSolvers.

(** Unfolds the state monad down to state transformers. *)
Ltac run_st :=
  unfold mbind, ST_bind, mret, ST_ret, gets, read, write, modify, lift,
    raise, alloc, at_node_get; simpl.

(** * Properties *)

(** ** Arrays *)

Lemma lookup_map {A B} (f : A -> B) (l : list A) (i : nat) :
  map f l !! i = f <$> (l !! i).
Proof. revert i. induction l as [|x l IH]; intros [|i]; simpl; auto. Qed.

Lemma lookup_seq_lt (start len i : nat) :
  i < len -> seq start len !! i = Some (start + i).
Proof. intros Hi. apply lookup_seq. split; [reflexivity | exact Hi]. Qed.

Lemma lookup_map_seq {B} (f : nat -> B) (start len i : nat) :
  i < len -> map f (seq start len) !! i = Some (f (start + i)).
Proof. intros Hi. rewrite lookup_map, lookup_seq_lt by exact Hi. reflexivity. Qed.

Lemma nth_lookup_Some {A} (l : list A) (i : nat) (d x : A) :
  l !! i = Some x -> nth i l d = x.
Proof.
  revert i. induction l as [|y l IH]; intros [|i] Hl; simpl in *;
    try discriminate; [congruence | auto].
Qed.

Lemma zip_with_map_same {A B C D} (f : B -> C -> D) (g : A -> B) (h : A -> C)
    (l : list A) :
  zip_with f (map g l) (map h l) = map (fun x => f (g x) (h x)) l.
Proof. induction l as [|x l IH]; simpl; [reflexivity | now rewrite IH]. Qed.

Lemma length_chunks {A} (cols rows : nat) (a : list A) :
  length (chunks cols rows a) = rows.
Proof. revert a. induction rows as [|n IH]; intros a; simpl; auto. Qed.

Lemma chunks_row_length {A} (cols rows : nat) (a : list A) :
  length a = rows * cols ->
  Forall (fun row => length row = cols) (chunks cols rows a).
Proof.
  revert a. induction rows as [|n IH]; intros a Ha; simpl; constructor.
  - rewrite length_take. simpl in Ha. lia.
  - apply IH. rewrite length_drop. simpl in Ha. lia.
Qed.

(** Reading the view at [(i, j)] reads the buffer at [i * cols + j]. *)
Lemma chunks_lookup {A} (cols rows : nat) (a : list A) (i j : nat) :
  i < rows -> j < cols ->
  chunks cols rows a !! i ≫= (.!! j) = a !! (i * cols + j).
Proof.
  revert a i. induction rows as [|n IH]; intros a i Hi Hj; [lia |].
  destruct i as [|i]; simpl.
  - rewrite lookup_take_lt by exact Hj. reflexivity.
  - rewrite IH by lia. rewrite lookup_drop. f_equal. lia.
Qed.

(** Writing through the view writes the buffer: flattening the rows of a
    view gives the buffer back. *)
Lemma concat_chunks {A} (cols rows : nat) (a : list A) :
  length a = rows * cols -> concat (chunks cols rows a) = a.
Proof.
  revert a. induction rows as [|n IH]; intros a Ha; simpl.
  - destruct a; [reflexivity | discriminate].
  - rewrite IH by (rewrite length_drop; simpl in Ha; lia).
    apply take_drop.
Qed.

Lemma concat_lookup_uniform {A} (cols : nat) (m : list (list A)) (i j : nat) :
  Forall (fun row => length row = cols) m -> j < cols ->
  concat m !! (i * cols + j) = m !! i ≫= (.!! j).
Proof.
  intros Hm Hj. revert i. induction Hm as [|row m Hrow Hm IH]; intros i.
  - simpl. now rewrite lookup_nil.
  - destruct i as [|i]; simpl.
    + apply lookup_app_l. lia.
    + rewrite lookup_app_r by lia. rewrite <- IH. f_equal. lia.
Qed.

Lemma length_concat_uniform {A} (cols : nat) (m : list (list A)) :
  Forall (fun row => length row = cols) m ->
  length (concat m) = length m * cols.
Proof.
  induction 1 as [|row m Hrow Hm IH]; simpl; [reflexivity |].
  rewrite length_app. lia.
Qed.

Lemma get2d_lookup {A} (d x : A) (m : list (list A)) (i j : nat) :
  m !! i ≫= (.!! j) = Some x -> get2d d m i j = x.
Proof.
  unfold get2d. intros Hm. destruct (m !! i) as [row|] eqn:Hi; [|discriminate].
  simpl in Hm. rewrite (nth_lookup_Some m i [] row Hi).
  now apply nth_lookup_Some.
Qed.

(** ** The kernel table *)

Section KernelFacts.
Context {F : Type} `{Num F} `{Externals F}.

Lemma create_kei_func_grid_rows (rows cols : nat) (dy dx alpha : F) :
  create_kei_func_grid (rows, cols) (dy, dx) alpha =
  map (fun i => map (kernel_entry dy dx alpha i) (seq 0 cols)) (seq 0 rows).
Proof.
  unfold create_kei_func_grid, meshgrid, map2d, zip2d, arange_times; simpl.
  rewrite !map_map, zip_with_map_same, !map_map.
  apply map_ext; intros i.
  rewrite !map_map, zip_with_map_same, !map_map.
  reflexivity.
Qed.

Lemma create_kei_func_grid_lookup (rows cols : nat) (dy dx alpha : F)
    (i j : nat) :
  i < rows -> j < cols ->
  create_kei_func_grid (rows, cols) (dy, dx) alpha !! i ≫= (.!! j)
  = Some (kernel_entry dy dx alpha i j).
Proof.
  intros Hi Hj. rewrite create_kei_func_grid_rows.
  rewrite lookup_map_seq by exact Hi. simpl.
  now rewrite lookup_map_seq by exact Hj.
Qed.

Lemma create_kei_func_grid_shape (rows cols : nat) (dy dx alpha : F) :
  length (create_kei_func_grid (rows, cols) (dy, dx) alpha) = rows /\
  Forall (fun row => length row = cols)
         (create_kei_func_grid (rows, cols) (dy, dx) alpha).
Proof.
  rewrite create_kei_func_grid_rows. split.
  - now rewrite length_map, length_seq.
  - apply Forall_forall. intros row Hrow.
    apply list_elem_of_In, in_map_iff in Hrow. destruct Hrow as [i [<- _]].
    now rewrite length_map, length_seq.
Qed.

(** C2: for every shape [(rows, cols)], spacing [(dy, dx)] and [alpha], the
    kernel table has [rows] rows of [cols] entries, and its entry at
    [(i, j)] is [kei(sqrt((i*dy)^2 + (j*dx)^2) / alpha)]; the source adds
    the two squares in the other order, which is the same number when
    addition commutes. *)
Theorem kernel_table_entries
    (Hcomm : forall x y : F, Fadd x y = Fadd y x)
    (rows cols : nat) (dy dx alpha : F) :
  let K := create_kei_func_grid (rows, cols) (dy, dx) alpha in
  length K = rows /\
  Forall (fun row => length row = cols) K /\
  forall i j, i < rows -> j < cols ->
    K !! i ≫= (.!! j) =
    Some (kei (Fdiv (Fsqrt (Fadd (Fsq (Fmul (Fof_nat i) dy))
                                 (Fsq (Fmul (Fof_nat j) dx)))) alpha)).
Proof.
  intros K. destruct (create_kei_func_grid_shape rows cols dy dx alpha)
    as [Hrows Hcols].
  split; [exact Hrows | split; [exact Hcols |]].
  intros i j Hi Hj. unfold K.
  rewrite create_kei_func_grid_lookup by assumption.
  unfold kernel_entry. now rewrite Hcomm.
Qed.
End KernelFacts.

(** C2 at the reals, on a 2 x 3 grid. *)
Lemma kernel_table_entries_witness :
  let K := @create_kei_func_grid R real_num real_externals
             (2, 3) (10, 20)%R 5%R in
  length K = 2 /\
  Forall (fun row => length row = 3) K /\
  forall i j, i < 2 -> j < 3 ->
    K !! i ≫= (.!! j) =
    Some (@kei R real_externals
            (sqrt ((INR i * 10) * (INR i * 10) + (INR j * 20) * (INR j * 20))
             / 5)%R).
Proof.
  exact (@kernel_table_entries R real_num real_externals Rplus_comm
           2 3 10%R 20%R 5%R).
Defined.

(** ** The dispatcher *)

Section DispatcherFacts.
Context {F : Type} `{Num F}.
Implicit Types (w load r : list (list F)) (c : F) (blk : nat * nat).

Lemma length_worker load r c rows cols blk :
  length (worker load r c rows cols blk) = snd blk - fst blk.
Proof. unfold worker. now rewrite length_map, length_seq. Qed.

Lemma copy_back_length w lo (block : list (list F)) :
  lo + length block <= length w ->
  length (copy_back w lo block) = length w.
Proof.
  intros Hle. unfold copy_back.
  rewrite !length_app, length_take, length_drop. lia.
Qed.

Lemma copy_back_lookup w lo (block : list (list F)) (i : nat) :
  lo + length block <= length w ->
  copy_back w lo block !! i =
  if decide (lo <= i < lo + length block) then block !! (i - lo) else w !! i.
Proof.
  intros Hle. unfold copy_back.
  destruct (decide (i < lo)) as [Hlt|Hge].
  - rewrite lookup_app_l by (rewrite length_take; lia).
    rewrite lookup_take_lt by exact Hlt.
    destruct (decide _); [lia | reflexivity].
  - rewrite lookup_app_r by (rewrite length_take; lia).
    rewrite length_take, Nat.min_l by lia.
    destruct (decide (lo <= i < lo + length block)) as [Hin|Hout].
    + apply lookup_app_l. lia.
    + rewrite lookup_app_r by lia. rewrite lookup_drop. f_equal. lia.
Qed.

Lemma run_workers_length load r c rows cols blocks w :
  Forall (block_ok (length w)) blocks ->
  length (run_workers load r c rows cols blocks w) = length w.
Proof.
  unfold run_workers. revert w.
  induction blocks as [|blk blocks IH]; intros w Hok; simpl; [reflexivity |].
  inversion Hok as [|? ? Hblk Hrest]; subst. destruct Hblk as [Hlo Hhi].
  assert (Hlen : length (copy_back w (fst blk)
                          (worker load r c rows cols blk)) = length w)
    by (apply copy_back_length; rewrite length_worker; lia).
  rewrite IH; [exact Hlen | now rewrite Hlen].
Qed.

(** Whatever the order of the blocks, a covered row holds the deflection
    of that row and any other row is left as it was. *)
Lemma run_workers_lookup load r c rows cols blocks w (i : nat) :
  Forall (block_ok (length w)) blocks ->
  run_workers load r c rows cols blocks w !! i =
  if decide (covered blocks i)
  then Some (deflection_row load r c rows cols i)
  else w !! i.
Proof.
  unfold run_workers, covered. revert w.
  induction blocks as [|blk blocks IH]; intros w Hok; simpl.
  - reflexivity.
  - inversion Hok as [|? ? Hblk Hrest]; subst. destruct Hblk as [Hlo Hhi].
    assert (Hfit : fst blk + length (worker load r c rows cols blk)
                   <= length w) by (rewrite length_worker; lia).
    rewrite IH by (now rewrite copy_back_length).
    rewrite copy_back_lookup by exact Hfit. rewrite length_worker.
    destruct (decide (Exists _ blocks)) as [Hin|Hout].
    + rewrite decide_True by (now apply Exists_cons_tl). reflexivity.
    + destruct (decide (fst blk <= i < fst blk + (snd blk - fst blk)))
        as [Hhere|Hnot].
      * rewrite decide_True by (apply Exists_cons_hd; lia).
        unfold worker. rewrite lookup_map_seq by lia. do 2 f_equal. lia.
      * rewrite decide_False; [reflexivity |].
        intros Hex. apply Exists_cons in Hex. destruct Hex; [lia | tauto].
Qed.

(** When the blocks cover every row, in any order, the output is the
    deflection of every row and nothing of its previous content is left. *)
Lemma run_workers_covering load r c cols blocks w :
  Forall (block_ok (length w)) blocks ->
  (forall i, i < length w -> covered blocks i) ->
  run_workers load r c (length w) cols blocks w =
  deflection_rows load r c (length w) cols.
Proof.
  intros Hok Hcov. apply list_eq. intros i.
  rewrite run_workers_lookup by exact Hok. unfold deflection_rows.
  destruct (decide (i < length w)) as [Hlt|Hge].
  - rewrite decide_True by auto. now rewrite lookup_map_seq.
  - rewrite decide_False.
    + rewrite !lookup_ge_None_2; [reflexivity | | lia].
      rewrite length_map, length_seq. lia.
    + intros Hex. apply Exists_exists in Hex.
      destruct Hex as [blk [Hblk Hi]].
      rewrite Forall_forall in Hok. specialize (Hok blk Hblk).
      unfold block_ok in Hok. lia.
Qed.

Lemma row_blocks_ok (rows n_procs : nat) :
  Forall (block_ok rows) (row_blocks rows n_procs).
Proof.
  unfold row_blocks. apply Forall_forall. intros blk Hblk.
  apply list_elem_of_In, in_map_iff in Hblk. destruct Hblk as [k [<- _]].
  unfold block_ok; simpl. split; [|lia].
  apply Nat.min_le_compat_l. nia.
Qed.

Lemma row_blocks_cover (rows n_procs i : nat) :
  1 <= n_procs -> i < rows -> covered (row_blocks rows n_procs) i.
Proof.
  intros Hk Hi. unfold covered, row_blocks.
  set (chunk := (rows + n_procs - 1) / n_procs).
  assert (Hceil : rows <= n_procs * chunk).
  { pose proof (Nat.div_mod_eq (rows + n_procs - 1) n_procs) as Hdm.
    pose proof (Nat.mod_upper_bound (rows + n_procs - 1) n_procs) as Hub.
    fold chunk in Hdm. lia. }
  assert (Hchunk : 1 <= chunk) by nia.
  pose proof (Nat.div_mod_eq i chunk) as Hdm.
  pose proof (Nat.mod_upper_bound i chunk) as Hub.
  apply Exists_exists.
  exists (Nat.min rows (i / chunk * chunk),
          Nat.min rows ((i / chunk + 1) * chunk)).
  split.
  - apply list_elem_of_In, in_map_iff. exists (i / chunk). split; [reflexivity |].
    apply in_seq. split; [lia |]. simpl.
    apply Nat.Div0.div_lt_upper_bound. nia.
  - simpl. nia.
Qed.

(** The dispatcher overwrites its output with the deflection of every
    row, for any positive number of workers. *)
Lemma subside_grid_in_parallel_rows w load r (alpha gamma : F) (n_procs : nat) :
  1 <= n_procs ->
  subside_grid_in_parallel w load r alpha gamma n_procs =
  deflection_rows load r (green_constant alpha gamma)
                  (length w) (length (hd [] w)).
Proof.
  intros Hk. unfold subside_grid_in_parallel.
  apply run_workers_covering.
  - apply row_blocks_ok.
  - intros i Hi. now apply row_blocks_cover.
Qed.
End DispatcherFacts.

(** ** The solvers *)

Section SolverFacts.
Context {F : Type} `{Num F} `{Externals F}.
Implicit Types (s : State F) (l : loc) (buf : list F).

Section AnyDispatcher.
Variable dispatch :
  list (list F) -> list (list F) -> list (list F) -> F -> F -> nat ->
  list (list F).

Lemma subside_loads_of_via_Some buf l s :
  subside_loads_of_via dispatch buf (Some l) s = subside_into dispatch buf l s.
Proof.
  unfold subside_loads_of_via, subside_into. run_st.
  destruct (reshape _ (default [] _)) as [e|dz]; [reflexivity |].
  destruct (reshape _ buf) as [e|load]; [reflexivity |].
  destruct (alpha (self s)) as [e|a]; reflexivity.
Qed.

Lemma subside_loads_of_via_None buf s :
  subside_loads_of_via dispatch buf None s =
  let l := fresh (dom (heap s)) in
  subside_into dispatch buf l
    (with_heap
       (insert l (replicate (fst (shape (grid s)) * snd (shape (grid s))) Fzero))
       s).
Proof.
  unfold subside_loads_of_via, subside_into. run_st.
  destruct (reshape _ (default [] _)) as [e|dz]; [reflexivity |].
  destruct (reshape _ buf) as [e|load]; [reflexivity |].
  destruct (alpha (self s)) as [e|a]; reflexivity.
Qed.

(** Whether it returns or raises, the solver writes nothing but [out]. *)
Lemma subside_into_frame buf l s :
  same_but l s (fst (subside_into dispatch buf l s)).
Proof.
  unfold subside_into, same_but.
  destruct (reshape _ (default [] _)) as [e|dz]; [auto |].
  destruct (reshape _ buf) as [e|load]; [auto |].
  destruct (alpha (self s)) as [e|a]; [auto |]. simpl.
  split; [reflexivity | split; [reflexivity |]].
  intros l' Hne. now rewrite lookup_insert_ne.
Qed.

Lemma reshape_ok {A} (shp : nat * nat) (a : list A) :
  length a = fst shp * snd shp ->
  reshape shp a = inr (chunks (snd shp) (fst shp) a).
Proof. intros Ha. unfold reshape. now rewrite decide_True. Qed.

Lemma subside_into_ok buf l s (old : list F) (a : F) :
  heap s !! l = Some old ->
  length old = fst (shape (grid s)) * snd (shape (grid s)) ->
  length buf = fst (shape (grid s)) * snd (shape (grid s)) ->
  alpha (self s) = inr a ->
  subside_into dispatch buf l s =
  (with_heap
     (insert l
        (concat
           (dispatch
              (chunks (snd (shape (grid s))) (fst (shape (grid s))) old)
              (map2d (fun x => Fmul (Fmul x (dx (grid s))) (dy (grid s)))
                     (chunks (snd (shape (grid s))) (fst (shape (grid s))) buf))
              (_r (self s)) a (gamma_mantle (self s)) (_n_procs (self s)))))
     s,
   inr l).
Proof.
  intros Hl Hold Hbuf Ha. unfold subside_into.
  rewrite Hl; simpl. rewrite !reshape_ok by assumption. now rewrite Ha.
Qed.
End AnyDispatcher.

Lemma deflection_rows_of_view (load r : list (list F)) (c : F)
    (rows cols : nat) (old : list F) :
  length old = rows * cols ->
  deflection_rows load r c (length (chunks cols rows old))
                  (length (hd [] (chunks cols rows old)))
  = deflection_rows load r c rows cols.
Proof.
  intros Hold. rewrite length_chunks. destruct rows as [|n]; [reflexivity |].
  simpl. rewrite length_take. f_equal. simpl in Hold. lia.
Qed.

(** With at least one worker, [subside_loads] puts [flexure_solution] in
    the output array, whatever that array held. *)
Lemma subside_into_solution buf l s (old : list F) (a : F) :
  1 <= _n_procs (self s) ->
  heap s !! l = Some old ->
  length old = fst (shape (grid s)) * snd (shape (grid s)) ->
  length buf = fst (shape (grid s)) * snd (shape (grid s)) ->
  alpha (self s) = inr a ->
  subside_into subside_grid_in_parallel buf l s =
  (with_heap (insert l (flexure_solution (grid s) (self s) a buf)) s, inr l).
Proof.
  intros Hk Hl Hold Hbuf Ha.
  rewrite (subside_into_ok _ buf l s old a) by assumption.
  rewrite subside_grid_in_parallel_rows by exact Hk.
  now rewrite deflection_rows_of_view.
Qed.
End SolverFacts.

(** ** The flexure sum *)

Section FlexureSum.
Context {F : Type} `{Num F} `{Externals F}.

Lemma nodes_in_grid (rows cols : nat) (p : nat * nat) :
  In p (nodes rows cols) -> fst p < rows /\ snd p < cols.
Proof.
  unfold nodes. rewrite in_flat_map. intros [i [Hi Hp]].
  apply in_map_iff in Hp. destruct Hp as [j [<- Hj]].
  apply in_seq in Hi. apply in_seq in Hj. simpl. lia.
Qed.

(** The scaled load read through the view is the node's load times the
    cell area. *)
Lemma get2d_force (rows cols : nat) (buf : list F) (dx dy : F) (i j : nat) :
  length buf = rows * cols -> i < rows -> j < cols ->
  get2d Fzero (map2d (fun x => Fmul (Fmul x dx) dy) (chunks cols rows buf)) i j
  = Fmul (Fmul (nth (i * cols + j) buf Fzero) dx) dy.
Proof.
  intros Hbuf Hi Hj.
  assert (Hlt : i * cols + j < length buf) by nia.
  destruct (lookup_lt_is_Some_2 buf _ Hlt) as [x Hx].
  rewrite (nth_lookup_Some buf _ Fzero x Hx).
  apply get2d_lookup. unfold map2d. rewrite lookup_map.
  pose proof (chunks_lookup cols rows buf i j Hi Hj) as Hview.
  rewrite Hx in Hview.
  destruct (chunks cols rows buf !! i) as [row|]; [|discriminate].
  simpl in *. rewrite lookup_map, Hview. reflexivity.
Qed.

Context `{!ExactArith F}.

(** Skipping the sources whose scaled load is zero gives the sum over the
    sources whose load is not zero. *)
Lemma fold_add_source_spec (rows cols : nat) (buf : list F) (dx dy a gamma : F)
    (r : list (list F)) (q : nat * nat) (ps : list (nat * nat)) (acc : F) :
  length buf = rows * cols ->
  (forall p, In p ps -> fst p < rows /\ snd p < cols) ->
  fold_left
    (add_source (map2d (fun x => Fmul (Fmul x dx) dy) (chunks cols rows buf))
                r (green_constant a gamma) q)
    ps acc
  = fold_left
      (fun acc p =>
         Fadd acc
           (Fmul
              (Fmul (Fmul (Fmul (nth (fst p * cols + snd p) buf Fzero) dx) dy)
                    (Fdiv Ftwo (Fmul (Fmul Fpi (Fsq a)) gamma)))
              (get2d Fzero r (absdiff (fst q) (fst p))
                             (absdiff (snd q) (snd p)))))
      (List.filter
         (fun p => Fneqb (nth (fst p * cols + snd p) buf Fzero) Fzero) ps)
      acc.
Proof.
  intros Hbuf. revert acc.
  induction ps as [|p ps IH]; intros acc Hin; [reflexivity |].
  simpl. destruct (Hin p (or_introl eq_refl)) as [Hi Hj].
  assert (IH' := fun acc' => IH acc' (fun p' Hp' => Hin p' (or_intror Hp'))).
  clear IH.
  unfold add_source at 2. rewrite get2d_force by assumption.
  set (x := nth (fst p * cols + snd p) buf Fzero).
  destruct (Fneqb (Fmul (Fmul x dx) dy) Fzero) eqn:Hforce;
    destruct (Fneqb x Fzero) eqn:Hload; simpl; rewrite IH'.
  - reflexivity.
  - apply Fneqb_false in Hload. rewrite Hload, !Fmul_0_l in Hforce.
    assert (Hz : Fneqb Fzero Fzero = false) by now apply Fneqb_false.
    congruence.
  - apply Fneqb_false in Hforce. fold x. unfold green_constant.
    now rewrite Hforce, !Fmul_0_l, Fadd_0_r.
  - reflexivity.
Qed.

Lemma deflection_at_spec (rows cols : nat) (buf : list F) (dx dy a gamma : F)
    (r : list (list F)) (q : nat * nat) :
  length buf = rows * cols ->
  deflection_at
    (map2d (fun x => Fmul (Fmul x dx) dy) (chunks cols rows buf))
    r (green_constant a gamma) rows cols q
  = spec_deflection buf dx dy a gamma r rows cols q.
Proof.
  intros Hbuf. unfold deflection_at, spec_deflection.
  apply (fold_add_source_spec rows cols); [exact Hbuf |].
  apply nodes_in_grid.
Qed.

Lemma flexure_solution_lookup (g : RasterModelGrid F) (o : Flexure F) (a : F)
    (buf : list F) (qi qj : nat) :
  length buf = fst (shape g) * snd (shape g) ->
  qi < fst (shape g) -> qj < snd (shape g) ->
  flexure_solution g o a buf !! (qi * snd (shape g) + qj) =
  Some (spec_deflection buf (dx g) (dy g) a (gamma_mantle o) (_r o)
          (fst (shape g)) (snd (shape g)) (qi, qj)).
Proof.
  intros Hbuf Hi Hj. unfold flexure_solution, deflection_rows.
  rewrite (concat_lookup_uniform (snd (shape g))); [| | exact Hj].
  - rewrite lookup_map_seq by exact Hi. simpl.
    unfold deflection_row. rewrite lookup_map_seq by exact Hj. simpl.
    now rewrite deflection_at_spec.
  - apply Forall_forall. intros row Hrow.
    apply list_elem_of_In, in_map_iff in Hrow. destruct Hrow as [i [<- _]].
    unfold deflection_row. now rewrite length_map, length_seq.
Qed.

Lemma length_flexure_solution (g : RasterModelGrid F) (o : Flexure F) (a : F)
    (buf : list F) :
  length (flexure_solution g o a buf) = fst (shape g) * snd (shape g).
Proof.
  unfold flexure_solution, deflection_rows.
  rewrite (length_concat_uniform (snd (shape g))).
  - now rewrite length_map, length_seq.
  - apply Forall_forall. intros row Hrow.
    apply list_elem_of_In, in_map_iff in Hrow. destruct Hrow as [i [<- _]].
    unfold deflection_row. now rewrite length_map, length_seq.
Qed.
End FlexureSum.

(** ** The [eet] setter *)

Section SetterFacts.
Context {F : Type} `{Num F} `{Externals F}.
Implicit Types (s : State F) (v : F).

Lemma eet_setter_unfold v s :
  eet_setter v s =
  if Fleb v Fzero then (s, inl InvalidParameter)
  else
    match alpha (set_eet v (self s)) with
    | inl e => (with_self (set_eet v) s, inl e)
    | inr a =>
        (with_self
           (set_r (create_kei_func_grid (shape (grid s))
                     (dy (grid s), dx (grid s)) a))
           (with_self (set_eet v) s),
         inr tt)
    end.
Proof.
  unfold eet_setter, rebuild_kernel. destruct (Fleb v Fzero); [reflexivity |].
  run_st. destruct (alpha (set_eet v (self s))); reflexivity.
Qed.

(** The flexural parameter does not depend on the table or on the number
    of workers. *)
Lemma alpha_set_r (K : list (list F)) (o : Flexure F) :
  alpha (set_r K o) = alpha o.
Proof. reflexivity. Qed.

Lemma alpha_set_n_procs (n : nat) (o : Flexure F) :
  alpha (set_n_procs n o) = alpha o.
Proof. reflexivity. Qed.

Lemma eet_setter_rejects v s :
  Fleb v Fzero = true -> eet_setter v s = (s, inl InvalidParameter).
Proof. intros Hv. rewrite eet_setter_unfold, Hv. reflexivity. Qed.

(** C10: an assignment [flex.eet = v] with [v <= 0] raises before anything
    is written: the state after the call is the state before it, so the
    stored [eet] and the kernel table are the previous ones. *)
Theorem eet_setter_rejected_leaves_state v s :
  Fleb v Fzero = true ->
  eet_setter v s = (s, inl InvalidParameter) /\
  _eet (self (fst (eet_setter v s))) = _eet (self s) /\
  _r (self (fst (eet_setter v s))) = _r (self s).
Proof. intros Hv. rewrite (eet_setter_rejects v s Hv). auto. Qed.

(** An accepted value is stored, and the call returns exactly when the
    parameter model does. *)
Lemma eet_setter_accepted v s :
  Fleb v Fzero = false ->
  _eet (self (fst (eet_setter v s))) = v /\
  (snd (eet_setter v s) = inr tt \/ snd (eet_setter v s) = inl ParameterError) /\
  (forall a,
     get_flexure_parameter v (_youngs (self s)) 2 (gamma_mantle (self s))
       = Some a ->
     eet_setter v s =
     (with_self
        (set_r (create_kei_func_grid (shape (grid s))
                  (dy (grid s), dx (grid s)) a))
        (with_self (set_eet v) s),
      inr tt)).
Proof.
  intros Hv. rewrite eet_setter_unfold, Hv. unfold alpha. simpl.
  change (gamma_mantle (set_eet v (self s))) with (gamma_mantle (self s)).
  destruct (get_flexure_parameter v _ 2 _) as [a|]; simpl.
  - split; [reflexivity | split; [now left |]].
    intros a' Ha. now inversion Ha.
  - split; [reflexivity | split; [now right | discriminate]].
Qed.

(** A successful assignment leaves the table in step with the new value. *)
Lemma eet_setter_in_sync v s :
  snd (eet_setter v s) = inr tt ->
  _eet (self (fst (eet_setter v s))) = v /\
  kernel_in_sync (fst (eet_setter v s)).
Proof.
  rewrite eet_setter_unfold. destruct (Fleb v Fzero); [discriminate |].
  destruct (alpha (set_eet v (self s))) as [e|a] eqn:Ha; [discriminate |].
  intros _. simpl. split; [reflexivity |].
  exists a. split; [exact Ha | reflexivity].
Qed.
End SetterFacts.

(** ** Construction *)

Section InitFacts.
Context {F : Type} `{Num F} `{Externals F}.
Implicit Types (s : State F) (method : string).

Lemma initialize_output_fields_spec s :
  snd (initialize_output_fields s) = inr tt /\
  self (fst (initialize_output_fields s)) = self s /\
  shape (grid (fst (initialize_output_fields s))) = shape (grid s) /\
  dy (grid (fst (initialize_output_fields s))) = dy (grid s) /\
  dx (grid (fst (initialize_output_fields s))) = dx (grid s).
Proof.
  unfold initialize_output_fields.
  destruct (at_node (grid s) !! deflection_name); simpl; auto.
Qed.

Lemma rebuild_kernel_unfold s :
  rebuild_kernel s =
  match alpha (self s) with
  | inl e => (s, inl e)
  | inr a =>
      (with_self
         (set_r (create_kei_func_grid (shape (grid s))
                   (dy (grid s), dx (grid s)) a)) s,
       inr tt)
  end.
Proof.
  unfold rebuild_kernel. run_st. destruct (alpha (self s)); reflexivity.
Qed.

Lemma Flexure_init_unsupported (eet youngs : F) method (rho gravity : F)
    (n : nat) s :
  method ∉ ["airy"; "flexure"] ->
  Flexure_init eet youngs method rho gravity n s =
  (s, inl (UnsupportedMethod method)).
Proof.
  intros Hm. unfold Flexure_init. now rewrite bool_decide_false.
Qed.

Lemma Flexure_init_supported (eet youngs : F) method (rho gravity : F)
    (n : nat) s :
  method ∈ ["airy"; "flexure"] ->
  Flexure_init eet youngs method rho gravity n s =
  match eet_setter eet
          (with_self (first_attributes youngs method rho gravity) s) with
  | (s2, inl e) => (s2, inl e)
  | (s2, inr _) =>
      rebuild_kernel
        (fst (initialize_output_fields (with_self (set_n_procs n) s2)))
  end.
Proof.
  intros Hm. unfold Flexure_init. rewrite bool_decide_true by exact Hm.
  run_st.
  destruct (eet_setter eet _) as [s2 [e|[]]]; [reflexivity |].
  destruct (initialize_output_fields_spec (with_self (set_n_procs n) s2))
    as [Hok _].
  destruct (initialize_output_fields _) as [s3 r]. simpl in *.
  now rewrite Hok.
Qed.

(** With a recognised method, construction returns or fails on [eet] or
    in the parameter model, and nowhere else. *)
Lemma Flexure_init_outcomes (eet youngs : F) method (rho gravity : F)
    (n : nat) s :
  method ∈ ["airy"; "flexure"] ->
  let out := snd (Flexure_init eet youngs method rho gravity n s) in
  (Fleb eet Fzero = true /\ out = inl InvalidParameter) \/
  (Fleb eet Fzero = false /\
   get_flexure_parameter eet youngs 2 (Fmul rho gravity) = None /\
   out = inl ParameterError) \/
  (Fleb eet Fzero = false /\
   (exists a, get_flexure_parameter eet youngs 2 (Fmul rho gravity) = Some a) /\
   out = inr tt).
Proof.
  intros Hm out. unfold out. rewrite Flexure_init_supported by exact Hm.
  rewrite eet_setter_unfold.
  destruct (Fleb eet Fzero); [left; auto | right].
  set (o := set_eet eet (first_attributes youngs method rho gravity (self s))).
  assert (Halpha : alpha o =
            match get_flexure_parameter eet youngs 2 (Fmul rho gravity) with
            | Some a => inr a
            | None => inl ParameterError
            end) by reflexivity.
  change (alpha (set_eet eet _)) with (alpha o). rewrite Halpha.
  destruct (get_flexure_parameter eet youngs 2 (Fmul rho gravity))
    as [a|] eqn:Ha; cbv beta iota.
  - right. split; [reflexivity | split; [eauto |]].
    rewrite rebuild_kernel_unfold.
    match goal with
    | |- context [initialize_output_fields ?s0] =>
        destruct (initialize_output_fields_spec s0) as (_ & Hself & _)
    end.
    rewrite Hself.
    change (alpha _) with (alpha o). rewrite Halpha. reflexivity.
  - left. auto.
Qed.

(** A successful construction stores [eet] and leaves the table built from
    the grid and from the flexural parameter of the stored attributes. *)
Lemma Flexure_init_in_sync (eet youngs : F) method (rho gravity : F)
    (n : nat) s :
  snd (Flexure_init eet youngs method rho gravity n s) = inr tt ->
  _eet (self (fst (Flexure_init eet youngs method rho gravity n s))) = eet /\
  kernel_in_sync (fst (Flexure_init eet youngs method rho gravity n s)).
Proof.
  destruct (decide (method ∈ ["airy"; "flexure"])) as [Hm|Hm].
  2:{ rewrite Flexure_init_unsupported by exact Hm. discriminate. }
  rewrite Flexure_init_supported by exact Hm.
  rewrite eet_setter_unfold.
  destruct (Fleb eet Fzero); [discriminate |].
  destruct (alpha (set_eet eet _)) as [e|a] eqn:Ha; [discriminate |].
  rewrite rebuild_kernel_unfold.
  match goal with
  | |- context [initialize_output_fields ?s0] =>
      destruct (initialize_output_fields_spec s0)
        as (_ & Hself & Hshape & Hdy & Hdx);
      destruct (initialize_output_fields s0) as [s3 r3]
  end.
  simpl in *. rewrite Hself. simpl.
  change (alpha _) with
    (alpha (set_eet eet (first_attributes youngs method rho gravity (self s)))).
  simpl in Ha. rewrite Ha. intros _. simpl. split.
  - rewrite Hself. reflexivity.
  - exists a. simpl. rewrite Hself. split; [exact Ha | reflexivity].
Qed.
End InitFacts.

(** ** Validation of the constructor's arguments *)

(** The two messages of the component never coincide. *)
Lemma UnsupportedMethod_not_InvalidParameter (m : string) :
  UnsupportedMethod m <> InvalidParameter.
Proof.
  unfold UnsupportedMethod, InvalidParameter. intros Heq.
  injection Heq as Heq. revert Heq.
  do 45 (destruct m as [|? m]; [discriminate |];
         unfold String.append; fold String.append;
         let Hc := fresh "Hc" in
         intros Heq; injection Heq as Hc Heq; clear Hc; revert Heq).
  destruct m; discriminate.
Qed.

Section Validation.
Context {F : Type} `{Num F} `{Externals F}.
Implicit Types (s : State F) (method : string).

(** C8: construction fails with the unsupported-method error exactly when
    [method] is neither "airy" nor "flexure"; it then fails at once, with
    the state (the object, the grid and its fields, every array) as it
    was. *)
Theorem unsupported_method_iff (eet youngs : F) method (rho gravity : F)
    (n : nat) s :
  ((exists m, snd (Flexure_init eet youngs method rho gravity n s)
              = inl (UnsupportedMethod m))
   <-> method ∉ ["airy"; "flexure"]) /\
  (method ∉ ["airy"; "flexure"] ->
   Flexure_init eet youngs method rho gravity n s
   = (s, inl (UnsupportedMethod method))).
Proof.
  split; [split |].
  - intros [m Hm] Hin.
    pose proof (Flexure_init_outcomes eet youngs method rho gravity n s Hin)
      as Hout. simpl in Hout. rewrite Hm in Hout.
    destruct Hout as [[_ Hout]|[(_ & _ & Hout)|(_ & _ & Hout)]];
      try discriminate.
    apply (UnsupportedMethod_not_InvalidParameter m). congruence.
  - intros Hm. exists method. now rewrite Flexure_init_unsupported.
  - apply Flexure_init_unsupported.
Qed.

(** C9: a value [v <= 0] is refused with the invalid-parameter error by the
    setter and, the method being recognised, by the constructor; any other
    value is never refused with that error, is stored, and the call
    returns whenever the parameter model returns a flexural parameter for
    it. *)
Theorem eet_validation (v youngs : F) method (rho gravity : F) (n : nat) s :
  (Fleb v Fzero = true ->
   snd (eet_setter v s) = inl InvalidParameter /\
   (method ∈ ["airy"; "flexure"] ->
    snd (Flexure_init v youngs method rho gravity n s) = inl InvalidParameter))
  /\
  (Fleb v Fzero = false ->
   snd (eet_setter v s) <> inl InvalidParameter /\
   _eet (self (fst (eet_setter v s))) = v /\
   (forall a,
      get_flexure_parameter v (_youngs (self s)) 2 (gamma_mantle (self s))
        = Some a ->
      snd (eet_setter v s) = inr tt) /\
   snd (Flexure_init v youngs method rho gravity n s) <> inl InvalidParameter /\
   (method ∈ ["airy"; "flexure"] ->
    forall a, get_flexure_parameter v youngs 2 (Fmul rho gravity) = Some a ->
      snd (Flexure_init v youngs method rho gravity n s) = inr tt /\
      _eet (self (fst (Flexure_init v youngs method rho gravity n s))) = v)).
Proof.
  split; intros Hv.
  - split.
    + now rewrite eet_setter_rejects.
    + intros Hm.
      pose proof (Flexure_init_outcomes v youngs method rho gravity n s Hm)
        as Hout. simpl in Hout.
      destruct Hout as [[_ Hout]|[(Hv' & _)|(Hv' & _)]];
        [exact Hout | congruence | congruence].
  - destruct (eet_setter_accepted v s Hv) as (Hstored & Hres & Hok).
    split; [|split; [exact Hstored | split]].
    + destruct Hres as [-> | ->]; discriminate.
    + intros a Ha. now rewrite (Hok a Ha).
    + destruct (decide (method ∈ ["airy"; "flexure"])) as [Hm|Hm].
      * pose proof (Flexure_init_outcomes v youngs method rho gravity n s Hm)
          as Hout. simpl in Hout.
        split.
        -- destruct Hout as [[Hv' _]|[(_ & _ & ->)|(_ & _ & ->)]];
             [congruence | discriminate | discriminate].
        -- intros _ a Ha.
           destruct Hout as [[Hv' _]|[(_ & Hnone & _)|(_ & _ & Hout)]];
             [congruence | congruence |].
           split; [exact Hout |].
           now apply Flexure_init_in_sync.
      * rewrite Flexure_init_unsupported by exact Hm. simpl. split.
        -- intros Heq.
           apply (UnsupportedMethod_not_InvalidParameter method). congruence.
        -- intros Hin. contradiction.
Qed.
End Validation.

(** ** Effects of the solvers on the state *)

Section Effects.
Context {F : Type} `{Num F} `{Externals F}.
Implicit Types (s : State F) (l : loc) (buf : list F).

Lemma state_eq s s' :
  self s = self s' -> grid s = grid s' -> heap s = heap s' -> s = s'.
Proof. destruct s, s'; simpl; intros; congruence. Qed.

Lemma same_but_refl l s : same_but l s s.
Proof. unfold same_but. auto. Qed.

Lemma same_but_trans l s1 s2 s3 :
  same_but l s1 s2 -> same_but l s2 s3 -> same_but l s1 s3.
Proof.
  unfold same_but. intros (Hs & Hg & Hh) (Hs' & Hg' & Hh').
  split; [congruence | split; [congruence |]].
  intros l' Hne. rewrite Hh', Hh by exact Hne. reflexivity.
Qed.

Lemma same_but_write l buf s : same_but l s (with_heap (insert l buf) s).
Proof.
  unfold same_but; simpl. split; [reflexivity | split; [reflexivity |]].
  intros l' Hne. now rewrite lookup_insert_ne.
Qed.

(** Two states that differ at [l] only agree once [l] is overwritten. *)
Lemma same_but_overwritten l buf s s' :
  same_but l s s' ->
  with_heap (insert l buf) s' = with_heap (insert l buf) s.
Proof.
  intros (Hs & Hg & Hh). apply state_eq; simpl; [exact Hs | exact Hg |].
  apply map_eq. intros l'. destruct (decide (l = l')) as [->|Hne].
  - now rewrite !lookup_insert_eq.
  - rewrite !lookup_insert_ne by exact Hne. apply Hh. congruence.
Qed.

Section AnyDispatcher.
Variable dispatch :
  list (list F) -> list (list F) -> list (list F) -> F -> F -> nat ->
  list (list F).

Lemma assign_all_unfold l (v : list F) s :
  assign_all l v s =
  let old := default [] (heap s !! l) in
  if decide (length v = length old)
  then (with_heap (insert l v) s, inr tt)
  else if decide (length v = 1)
       then (with_heap (insert l (replicate (length old) (hd Fzero v))) s,
             inr tt)
       else (s, inl ShapeError).
Proof.
  unfold assign_all. run_st.
  destruct (decide (length v = _)); [reflexivity |].
  destruct (decide (length v = 1)); reflexivity.
Qed.

Lemma assign_all_frame l (v : list F) s :
  same_but l s (fst (assign_all l v s)).
Proof.
  rewrite assign_all_unfold. simpl.
  destruct (decide (length v = _));
    [apply same_but_write | destruct (decide (length v = 1))];
    [apply same_but_write | apply same_but_refl].
Qed.

(** [update] when the grid has both fields: the output is zeroed, then
    one of the two methods runs on a copy of the load. *)
Lemma update_via_unfold s (ll dl : loc) :
  at_node (grid s) !! load_name = Some ll ->
  at_node (grid s) !! deflection_name = Some dl ->
  update_via dispatch s =
  let new_load := default [] (heap s !! ll) in
  let zeroed :=
    with_heap
      (insert dl (replicate (length (default [] (heap s !! dl))) Fzero)) s in
  if String.eqb (_method (self s)) "airy"
  then assign_all dl
         (map (fun x => Fdiv x (gamma_mantle (self s))) new_load) zeroed
  else
    match subside_into dispatch new_load dl zeroed with
    | (s', inr _) => (s', inr tt)
    | (s', inl e) => (s', inl e)
    end.
Proof.
  intros Hll Hdl. unfold update_via. run_st. rewrite Hll, Hdl. simpl.
  destruct (String.eqb (_method (self s)) "airy"); [reflexivity |].
  rewrite subside_loads_of_via_Some.
  destruct (subside_into _ _ _ _) as [s' [e|l]]; reflexivity.
Qed.

Lemma update_via_no_load s :
  at_node (grid s) !! load_name = None ->
  update_via dispatch s = (s, inl (FieldError load_name)).
Proof. intros Hll. unfold update_via. run_st. now rewrite Hll. Qed.

Lemma update_via_no_deflection s :
  at_node (grid s) !! deflection_name = None ->
  fst (update_via dispatch s) = s.
Proof.
  intros Hdl. unfold update_via. run_st.
  destruct (at_node (grid s) !! load_name); [|reflexivity].
  simpl. now rewrite Hdl.
Qed.

(** [update] writes the deflection field and nothing else, whether it
    returns or raises. *)
Lemma update_via_frame s (dl : loc) :
  at_node (grid s) !! deflection_name = Some dl ->
  same_but dl s (fst (update_via dispatch s)).
Proof.
  intros Hdl.
  destruct (at_node (grid s) !! load_name) as [ll|] eqn:Hll.
  - rewrite (update_via_unfold s ll dl Hll Hdl). cbv zeta.
    eapply same_but_trans; [apply same_but_write |].
    destruct (String.eqb _ _).
    + apply assign_all_frame.
    + match goal with
      | |- context [subside_into dispatch ?b dl ?s0] =>
          pose proof (subside_into_frame dispatch b dl s0) as Hfr;
          destruct (subside_into dispatch b dl s0) as [s' [e|l]]
      end; exact Hfr.
  - rewrite update_via_no_load by exact Hll. apply same_but_refl.
Qed.

(** [subside_loads] writes its output array and nothing else. *)
Lemma subside_loads_via_frame (loads : loc) (out : option loc) s :
  match out with
  | Some l => same_but l s (fst (subside_loads_via dispatch loads out s))
  | None =>
      heap s !! fresh (dom (heap s)) = None /\
      same_but (fresh (dom (heap s))) s
               (fst (subside_loads_via dispatch loads out s))
  end.
Proof.
  unfold subside_loads_via. run_st. destruct out as [l|].
  - rewrite subside_loads_of_via_Some. apply subside_into_frame.
  - rewrite subside_loads_of_via_None. cbv zeta. split.
    + apply not_elem_of_dom, is_fresh.
    + eapply same_but_trans; [apply same_but_write |].
      apply subside_into_frame.
Qed.

(** The outcome of [update] does not depend on what the deflection field
    held, for any solver behind [subside_loads]. *)
Lemma update_via_prior_contents s s' (ll dl : loc) (old old' : list F) :
  at_node (grid s) !! load_name = Some ll ->
  at_node (grid s) !! deflection_name = Some dl ->
  same_but dl s s' ->
  heap s !! dl = Some old -> heap s' !! dl = Some old' ->
  length old' = length old ->
  heap s' !! ll = heap s !! ll ->
  update_via dispatch s' = update_via dispatch s.
Proof.
  intros Hll Hdl Hsame Hold Hold' Hlen Hload.
  pose proof Hsame as (Hself & Hgrid & _).
  rewrite (update_via_unfold s ll dl Hll Hdl).
  rewrite (update_via_unfold s' ll dl) by (rewrite Hgrid; assumption).
  cbv zeta. rewrite Hself, Hload, Hold, Hold'. simpl. rewrite Hlen.
  now rewrite (same_but_overwritten dl _ s s').
Qed.
End AnyDispatcher.
End Effects.

(** ** The Airy method *)

Section Airy.
Context {F : Type} `{Num F} `{Externals F}.
Implicit Types (s : State F) (l : loc).

Lemma update_airy s (ll dl : loc) (load old : list F) :
  _method (self s) = "airy" ->
  at_node (grid s) !! load_name = Some ll ->
  at_node (grid s) !! deflection_name = Some dl ->
  heap s !! ll = Some load ->
  heap s !! dl = Some old ->
  length old = length load ->
  update s =
  (with_heap
     (insert dl (map (fun x => Fdiv x (gamma_mantle (self s))) load)) s,
   inr tt).
Proof.
  intros Hm Hll Hdl Hload Hold Hlen. unfold update.
  rewrite (update_via_unfold _ s ll dl Hll Hdl). cbv zeta.
  rewrite Hm, Hload, Hold. simpl.
  rewrite assign_all_unfold. simpl. rewrite lookup_insert_eq. simpl.
  rewrite decide_True by (now rewrite length_map, length_replicate).
  f_equal. apply state_eq; simpl; [reflexivity | reflexivity |].
  apply insert_insert_eq.
Qed.

(** C3: with the Airy method [update] returns and leaves in the deflection
    field, node by node, the load divided by [rho_mantle * gravity]; a
    change of one load value changes the deflection of that node and of no
    other. *)
Theorem airy_deflection s (ll dl : loc) (load old : list F) :
  _method (self s) = "airy" ->
  at_node (grid s) !! load_name = Some ll ->
  at_node (grid s) !! deflection_name = Some dl ->
  heap s !! ll = Some load ->
  heap s !! dl = Some old ->
  length old = length load ->
  let gamma := Fmul (_rho_mantle (self s)) (_gravity (self s)) in
  let deflection := map (fun x => Fdiv x gamma) load in
  update s = (with_heap (insert dl deflection) s, inr tt) /\
  (forall i x, load !! i = Some x -> deflection !! i = Some (Fdiv x gamma)) /\
  (forall i v,
     exists s',
       update (with_heap (insert ll (<[i:=v]> load)) s) = (s', inr tt) /\
       heap s' !! dl = Some (<[i:=Fdiv v gamma]> deflection)).
Proof.
  intros Hm Hll Hdl Hload Hold Hlen gamma deflection.
  split; [|split].
  - now apply (update_airy s ll dl load old).
  - intros i x Hx. unfold deflection. now rewrite lookup_map, Hx.
  - intros i v.
    set (s1 := with_heap (insert ll (<[i:=v]> load)) s).
    assert (Hold1 : exists old1, heap s1 !! dl = Some old1 /\
                      length old1 = length (<[i:=v]> load)).
    { unfold s1; simpl. destruct (decide (ll = dl)) as [->|Hne].
      - rewrite lookup_insert_eq. eauto.
      - rewrite lookup_insert_ne by exact Hne.
        exists old. now rewrite length_insert. }
    destruct Hold1 as (old1 & Hold1 & Hlen1).
    eexists. split.
    + apply (update_airy s1 ll dl (<[i:=v]> load) old1); try assumption.
      unfold s1; simpl. apply lookup_insert_eq.
    + simpl. rewrite lookup_insert_eq. f_equal.
      unfold deflection.
      change (map ?f ?l) with (f <$> l). now rewrite list_fmap_insert.
Qed.
End Airy.

(** C3 on the docstring's grid: the interior nodes loaded with
    [gamma_mantle]. *)
Lemma airy_deflection_witness :
  let s := Sample.airy_state Sample.interior_load in
  let gamma := (3300.0 * 9.80665)%float in
  let deflection := map (fun x => (x / gamma)%float) Sample.interior_load in
  @update float float64 float64_externals s
    = (with_heap (insert 1 deflection) s, inr tt) /\
  (forall i x, Sample.interior_load !! i = Some x ->
     deflection !! i = Some (x / gamma)%float) /\
  (forall i v,
     exists s',
       @update float float64 float64_externals
         (with_heap (insert 0 (<[i:=v]> Sample.interior_load)) s)
         = (s', inr tt) /\
       heap s' !! 1 = Some (<[i:=(v / gamma)%float]> deflection)).
Proof.
  exact (@airy_deflection float float64 float64_externals
           (Sample.airy_state Sample.interior_load) 0 1
           Sample.interior_load (replicate 20 0%float)
           eq_refl eq_refl eq_refl eq_refl eq_refl eq_refl).
Defined.

(** The docstring's example: the deflection is 1 at the interior nodes. *)
Example airy_docstring :
  heap (fst (@update float float64 float64_externals
               (Sample.airy_state Sample.interior_load))) !! 1
  = Some [0; 0; 0; 0;  0; 1; 1; 0;  0; 1; 1; 0;  0; 1; 1; 0;  0; 0; 0; 0]%float.
Proof. vm_compute. reflexivity. Qed.

(** ** What a solve writes *)

Section Frame.
Context {F : Type} `{Num F} `{Externals F}.
Implicit Types (s : State F) (l : loc).

(** C7, as the code has it: [update] and [subside_loads], with either
    method and whether they return or raise, leave the component, the grid
    and every array other than the output array as they were; so the load
    array is left as it was whenever it is not itself the output array. *)
Theorem solve_writes_only_output s :
  (forall dl, at_node (grid s) !! deflection_name = Some dl ->
     same_but dl s (fst (update s)) /\
     (forall ll, at_node (grid s) !! load_name = Some ll -> ll <> dl ->
        heap (fst (update s)) !! ll = heap s !! ll)) /\
  (at_node (grid s) !! deflection_name = None -> fst (update s) = s) /\
  (forall loads out,
     same_but out s (fst (subside_loads loads (Some out) s)) /\
     (loads <> out ->
      heap (fst (subside_loads loads (Some out) s)) !! loads
      = heap s !! loads)) /\
  (forall loads,
     let out := fresh (dom (heap s)) in
     heap s !! out = None /\
     same_but out s (fst (subside_loads loads None s)) /\
     (is_Some (heap s !! loads) ->
      heap (fst (subside_loads loads None s)) !! loads = heap s !! loads)).
Proof.
  split; [|split; [|split]].
  - intros dl Hdl.
    pose proof (update_via_frame subside_grid_in_parallel s dl Hdl) as Hfr.
    split; [exact Hfr |].
    intros ll _ Hne. destruct Hfr as (_ & _ & Hheap). now apply Hheap.
  - apply update_via_no_deflection.
  - intros loads out.
    pose proof (subside_loads_via_frame subside_grid_in_parallel
                  loads (Some out) s) as Hfr.
    split; [exact Hfr |].
    intros Hne. destruct Hfr as (_ & _ & Hheap). now apply Hheap.
  - intros loads out.
    pose proof (subside_loads_via_frame subside_grid_in_parallel
                  loads None s) as [Hfresh Hfr].
    split; [exact Hfresh | split; [exact Hfr |]].
    intros [a Ha]. destruct Hfr as (_ & _ & Hheap). apply Hheap.
    intros ->. unfold out in Hfresh. congruence.
Qed.
End Frame.

(** C7 as stated fails when the caller passes the load array itself as
    [out]: after [subside_loads(a, out=a)] on the sample grid, the array
    holds the deflection and no longer the load of 1e9 Pa at node 4. *)
Lemma load_overwritten_when_out_is_loads :
  let s := Sample.flexure_state 1 Sample.point_load in
  heap s !! 0 = Some Sample.point_load /\
  heap (fst (@subside_loads float float64 float64_externals 0 (Some 0) s)) !! 0
  <> heap s !! 0.
Proof.
  split; [reflexivity |].
  intros Heq.
  apply (f_equal (fun o : option (list float) =>
                    match o with
                    | Some a => PrimFloat.eqb (nth 4 a 0%float) 1e9%float
                    | None => true
                    end)) in Heq.
  vm_compute in Heq. discriminate.
Qed.

(** ** The output does not depend on what the output array held *)

Section PriorContents.
Context {F : Type} `{Num F} `{Externals F}.
Implicit Types (s : State F) (l : loc).

Lemma subside_loads_Some (loads out : loc) s :
  subside_loads loads (Some out) s =
  subside_into subside_grid_in_parallel (default [] (heap s !! loads)) out s.
Proof.
  unfold subside_loads, subside_loads_via. run_st.
  apply subside_loads_of_via_Some.
Qed.

Lemma subside_loads_None (loads : loc) s :
  subside_loads loads None s =
  let l := fresh (dom (heap s)) in
  subside_into subside_grid_in_parallel (default [] (heap s !! loads)) l
    (with_heap
       (insert l (replicate (fst (shape (grid s)) * snd (shape (grid s))) Fzero))
       s).
Proof.
  unfold subside_loads, subside_loads_via. run_st.
  apply subside_loads_of_via_None.
Qed.

(** What [subside_loads] returns when the arrays fit the grid. *)
Lemma subside_loads_Some_solution (loads out : loc) s
    (load old : list F) (a : F) :
  1 <= _n_procs (self s) ->
  alpha (self s) = inr a ->
  heap s !! loads = Some load ->
  length load = fst (shape (grid s)) * snd (shape (grid s)) ->
  heap s !! out = Some old ->
  length old = fst (shape (grid s)) * snd (shape (grid s)) ->
  subside_loads loads (Some out) s =
  (with_heap (insert out (flexure_solution (grid s) (self s) a load)) s,
   inr out).
Proof.
  intros Hk Ha Hload Hlen Hold Hlen'.
  rewrite subside_loads_Some, Hload. simpl.
  now apply (subside_into_solution load out s old a).
Qed.

Lemma subside_loads_None_solution (loads : loc) s (load : list F) (a : F) :
  1 <= _n_procs (self s) ->
  alpha (self s) = inr a ->
  heap s !! loads = Some load ->
  length load = fst (shape (grid s)) * snd (shape (grid s)) ->
  let out := fresh (dom (heap s)) in
  subside_loads loads None s =
  (with_heap (insert out (flexure_solution (grid s) (self s) a load)) s,
   inr out).
Proof.
  intros Hk Ha Hload Hlen out.
  rewrite subside_loads_None, Hload. cbv zeta. fold out. simpl.
  set (zeros := replicate (fst (shape (grid s)) * snd (shape (grid s))) Fzero).
  rewrite (subside_into_solution load out (with_heap (insert out zeros) s)
             zeros a); simpl; try assumption.
  - f_equal. apply state_eq; simpl; [reflexivity | reflexivity |].
    apply insert_insert_eq.
  - apply lookup_insert_eq.
  - unfold zeros. apply length_replicate.
Qed.

(** With any method other than "airy", [update] leaves the same field in
    the grid's deflection array. *)
Lemma update_flexure_solution s (ll dl : loc) (load old : list F) (a : F) :
  String.eqb (_method (self s)) "airy" = false ->
  at_node (grid s) !! load_name = Some ll ->
  at_node (grid s) !! deflection_name = Some dl ->
  1 <= _n_procs (self s) ->
  alpha (self s) = inr a ->
  heap s !! ll = Some load ->
  length load = fst (shape (grid s)) * snd (shape (grid s)) ->
  heap s !! dl = Some old ->
  length old = fst (shape (grid s)) * snd (shape (grid s)) ->
  update s =
  (with_heap (insert dl (flexure_solution (grid s) (self s) a load)) s,
   inr tt).
Proof.
  intros Hm Hll Hdl Hk Ha Hload Hlen Hold Hlen'. unfold update.
  rewrite (update_via_unfold _ s ll dl Hll Hdl). cbv zeta.
  rewrite Hm, Hload, Hold. simpl.
  set (zeros := replicate (length old) Fzero).
  rewrite (subside_into_solution load dl (with_heap (insert dl zeros) s)
             zeros a); simpl; try assumption.
  - f_equal. apply state_eq; simpl; [reflexivity | reflexivity |].
    apply insert_insert_eq.
  - apply lookup_insert_eq.
  - unfold zeros. rewrite length_replicate. exact Hlen'.
Qed.

(** With the dispatcher of the specification, which assigns every node its
    sum, the outcome of a solve does not depend on what the output array
    held.  For [update], two states that differ only in the contents of
    the deflection field give the same result state; for [subside_loads]
    with a caller-supplied array, likewise, and the array ends up holding
    what a newly allocated array of zeros ends up holding when no array is
    supplied. *)
Theorem output_independent_of_prior_contents :
  (forall s s' (ll dl : loc) (old old' : list F),
     at_node (grid s) !! load_name = Some ll ->
     at_node (grid s) !! deflection_name = Some dl ->
     same_but dl s s' ->
     heap s !! dl = Some old -> heap s' !! dl = Some old' ->
     length old' = length old ->
     heap s' !! ll = heap s !! ll ->
     update s' = update s) /\
  (forall s s' (loads out : loc) (load old old' : list F) (a : F),
     1 <= _n_procs (self s) ->
     alpha (self s) = inr a ->
     heap s !! loads = Some load ->
     length load = fst (shape (grid s)) * snd (shape (grid s)) ->
     same_but out s s' ->
     heap s !! out = Some old -> heap s' !! out = Some old' ->
     length old = fst (shape (grid s)) * snd (shape (grid s)) ->
     length old' = length old ->
     heap s' !! loads = heap s !! loads ->
     subside_loads loads (Some out) s' = subside_loads loads (Some out) s /\
     heap (fst (subside_loads loads (Some out) s)) !! out
     = heap (fst (subside_loads loads None s)) !! fresh (dom (heap s))).
Proof.
  split.
  - intros s s' ll dl old old'. unfold update. apply update_via_prior_contents.
  - intros s s' loads out load old old' a
      Hk Ha Hload Hlen Hsame Hold Hold' Hlo Hlo' Hloads.
    pose proof Hsame as (Hself & Hgrid & _).
    rewrite (subside_loads_Some_solution loads out s load old a)
      by assumption.
    rewrite (subside_loads_Some_solution loads out s' load old' a)
      by (rewrite ?Hself, ?Hgrid; congruence).
    rewrite (subside_loads_None_solution loads s load a) by assumption.
    rewrite Hself, Hgrid. simpl. split.
    + now rewrite (same_but_overwritten out _ s s').
    + now rewrite !lookup_insert_eq.
Qed.
End PriorContents.

(** ** The flexure method *)

Section FlexureMethod.
Context {F : Type} `{Num F} `{Externals F}.
Implicit Types (s : State F) (l : loc).

(** C1: in exact arithmetic and with at least one worker, [subside_loads]
    returns, and the deflection it leaves at every node [(qi, qj)] is the
    sum over the nodes [p] with a nonzero load of [load[p] * dx * dy *
    (2 / (pi * alpha**2 * gamma_mantle)) * r[|qi - pi|, |qj - pj|]], with
    [r] the stored kernel table and [alpha] the current flexural
    parameter. *)
Theorem flexure_deflection_is_kernel_sum `{!ExactArith F}
    s (loads : loc) (out : option loc) (load : list F) (a : F) :
  1 <= _n_procs (self s) ->
  alpha (self s) = inr a ->
  heap s !! loads = Some load ->
  length load = fst (shape (grid s)) * snd (shape (grid s)) ->
  match out with
  | Some l => exists old, heap s !! l = Some old /\
                length old = fst (shape (grid s)) * snd (shape (grid s))
  | None => True
  end ->
  exists s' l deflection,
    subside_loads loads out s = (s', inr l) /\
    heap s' !! l = Some deflection /\
    length deflection = fst (shape (grid s)) * snd (shape (grid s)) /\
    forall qi qj, qi < fst (shape (grid s)) -> qj < snd (shape (grid s)) ->
      deflection !! (qi * snd (shape (grid s)) + qj) =
      Some (spec_deflection load (dx (grid s)) (dy (grid s)) a
              (Fmul (_rho_mantle (self s)) (_gravity (self s)))
              (_r (self s))
              (fst (shape (grid s))) (snd (shape (grid s))) (qi, qj)).
Proof.
  intros Hk Ha Hload Hlen Hout.
  assert (Hsol : exists l,
            subside_loads loads out s =
            (with_heap (insert l (flexure_solution (grid s) (self s) a load)) s,
             inr l)).
  { destruct out as [l|].
    - destruct Hout as (old & Hold & Hlen'). exists l.
      now apply (subside_loads_Some_solution loads l s load old a).
    - eexists. now apply (subside_loads_None_solution loads s load a). }
  destruct Hsol as [l Hsol].
  exists (with_heap (insert l (flexure_solution (grid s) (self s) a load)) s),
    l, (flexure_solution (grid s) (self s) a load).
  split; [exact Hsol | split; [apply lookup_insert_eq | split]].
  - apply length_flexure_solution.
  - intros qi qj Hi Hj. now apply flexure_solution_lookup.
Qed.

Lemma subside_grid_in_parallel_workers (w load r : list (list F))
    (alpha gamma : F) (k : nat) :
  1 <= k ->
  subside_grid_in_parallel w load r alpha gamma k =
  subside_grid_in_parallel w load r alpha gamma 1.
Proof.
  intros Hk. now rewrite !subside_grid_in_parallel_rows by lia.
Qed.

Lemma subside_into_workers (buf : list F) l s (k : nat) :
  1 <= k ->
  snd (subside_into subside_grid_in_parallel buf l
         (with_self (set_n_procs k) s))
  = snd (subside_into subside_grid_in_parallel buf l
           (with_self (set_n_procs 1) s)) /\
  heap (fst (subside_into subside_grid_in_parallel buf l
               (with_self (set_n_procs k) s)))
  = heap (fst (subside_into subside_grid_in_parallel buf l
                 (with_self (set_n_procs 1) s))).
Proof.
  intros Hk. unfold subside_into. simpl.
  destruct (reshape _ (default [] _)) as [e|dz]; [auto |].
  destruct (reshape _ buf) as [e|ld]; [auto |].
  change (alpha (set_n_procs k (self s))) with (alpha (self s)).
  change (alpha (set_n_procs 1 (self s))) with (alpha (self s)).
  destruct (alpha (self s)) as [e|a]; [auto |]. simpl.
  change (gamma_mantle (set_n_procs k (self s))) with (gamma_mantle (self s)).
  change (gamma_mantle (set_n_procs 1 (self s))) with (gamma_mantle (self s)).
  now rewrite (subside_grid_in_parallel_workers _ _ _ _ _ k).
Qed.

(** C4: with [k >= 1] workers the dispatcher gives what one worker gives,
    in whatever order the workers' blocks are copied back; hence
    [subside_loads] and [update] on a component with [n_procs = k] return
    the same result and leave the same arrays as with [n_procs = 1]. *)
Theorem worker_count_invariance (k : nat) :
  1 <= k ->
  (forall (w load r : list (list F)) (alpha gamma : F)
          (order : list (nat * nat)),
     order ≡ₚ row_blocks (length w) k ->
     run_workers load r (green_constant alpha gamma)
                 (length w) (length (hd [] w)) order w
     = subside_grid_in_parallel w load r alpha gamma 1) /\
  (forall s (loads : loc) (out : option loc),
     snd (subside_loads loads out (with_self (set_n_procs k) s))
     = snd (subside_loads loads out (with_self (set_n_procs 1) s)) /\
     heap (fst (subside_loads loads out (with_self (set_n_procs k) s)))
     = heap (fst (subside_loads loads out (with_self (set_n_procs 1) s)))) /\
  (forall s,
     snd (update (with_self (set_n_procs k) s))
     = snd (update (with_self (set_n_procs 1) s)) /\
     heap (fst (update (with_self (set_n_procs k) s)))
     = heap (fst (update (with_self (set_n_procs 1) s)))).
Proof.
  intros Hk. split; [|split].
  - intros w load r al gamma order Hperm.
    rewrite subside_grid_in_parallel_rows by lia.
    apply run_workers_covering.
    + rewrite Hperm. apply row_blocks_ok.
    + intros i Hi. unfold covered. rewrite Hperm.
      now apply row_blocks_cover.
  - intros s loads [out|].
    + rewrite !subside_loads_Some. simpl. now apply subside_into_workers.
    + rewrite !subside_loads_None. cbv zeta. simpl.
      exact (subside_into_workers (default [] (heap s !! loads))
               (fresh (dom (heap s)))
               (with_heap
                  (insert (fresh (dom (heap s)))
                     (replicate (fst (shape (grid s)) * snd (shape (grid s)))
                                Fzero)) s)
               k Hk).
  - intros s. unfold update.
    destruct (at_node (grid s) !! load_name) as [ll|] eqn:Hll.
    2:{ rewrite !update_via_no_load by exact Hll. auto. }
    destruct (at_node (grid s) !! deflection_name) as [dl|] eqn:Hdl.
    2:{ unfold update_via. run_st. rewrite Hll. simpl. rewrite Hdl. auto. }
    rewrite !(update_via_unfold _ _ ll dl) by assumption. cbv zeta. simpl.
    destruct (String.eqb (_method (self s)) "airy").
    + rewrite !assign_all_unfold. simpl.
      destruct (decide _); [auto | destruct (decide _); auto].
    + match goal with
      | |- context [subside_into _ ?b dl (with_heap ?f _)] =>
          pose proof (subside_into_workers b dl (with_heap f s) k Hk)
            as [Hres Hheap]
      end.
      unfold with_heap, with_self in *. simpl in *.
      destruct (subside_into _ _ _ _) as [s1 [e1|l1]];
        destruct (subside_into _ _ _ _) as [s2 [e2|l2]];
        simpl in *; split; congruence.
Qed.
End FlexureMethod.

(** ** The kernel table follows [eet] *)

Section KernelSync.
Context {F : Type} `{Num F} `{Externals F}.
Implicit Types (s : State F) (l : loc).

Lemma kernel_in_sync_same_but l s s' :
  same_but l s s' -> kernel_in_sync s -> kernel_in_sync s'.
Proof.
  intros (Hself & Hgrid & _). unfold kernel_in_sync.
  now rewrite Hself, Hgrid.
Qed.

(** C5: when an assignment to [eet] returns, in the setter or in the
    constructor, the new value is stored and the kernel table is already
    the one built from the grid's shape and spacing and from the flexural
    parameter of the new value; the solvers leave the component and the
    grid as they are, so every later solve reads that table. *)
Theorem kernel_rebuilt_with_eet :
  (forall (v : F) s,
     snd (eet_setter v s) = inr tt ->
     _eet (self (fst (eet_setter v s))) = v /\
     kernel_in_sync (fst (eet_setter v s))) /\
  (forall (eet youngs : F) (method : string) (rho gravity : F) (n : nat) s,
     snd (Flexure_init eet youngs method rho gravity n s) = inr tt ->
     _eet (self (fst (Flexure_init eet youngs method rho gravity n s))) = eet /\
     kernel_in_sync (fst (Flexure_init eet youngs method rho gravity n s))) /\
  (forall s, kernel_in_sync s -> kernel_in_sync (fst (update s))) /\
  (forall s (loads : loc) (out : option loc),
     kernel_in_sync s -> kernel_in_sync (fst (subside_loads loads out s))).
Proof.
  split; [|split; [|split]].
  - apply eet_setter_in_sync.
  - apply Flexure_init_in_sync.
  - intros s Hsync.
    destruct (at_node (grid s) !! deflection_name) as [dl|] eqn:Hdl.
    + apply (kernel_in_sync_same_but dl s); [|exact Hsync].
      now apply update_via_frame.
    + unfold update. now rewrite update_via_no_deflection.
  - intros s loads out Hsync.
    pose proof (subside_loads_via_frame subside_grid_in_parallel loads out s)
      as Hfr.
    destruct out as [l|].
    + now apply (kernel_in_sync_same_but l s).
    + destruct Hfr as [_ Hfr].
      now apply (kernel_in_sync_same_but _ s _ Hfr).
Qed.
End KernelSync.

(** ** The properties on the sample grid *)

(** The reals satisfy the laws of exact arithmetic. *)
Lemma real_exact : @ExactArith R real_num.
Proof.
  split; simpl.
  - apply Rplus_comm.
  - apply Rplus_0_r.
  - apply Rmult_0_l.
  - intros x y. destruct (Req_dec_T x y); split; congruence.
Qed.

(** C10 on the sample component: [flex.eet = -1.0]. *)
Lemma eet_setter_rejected_witness :
  let s := Sample.airy_state Sample.interior_load in
  @eet_setter float float64 float64_externals (-1)%float s
    = (s, inl InvalidParameter) /\
  _eet (self (fst (@eet_setter float float64 float64_externals
                     (-1)%float s))) = _eet (self s) /\
  _r (self (fst (@eet_setter float float64 float64_externals
                   (-1)%float s))) = _r (self s).
Proof.
  exact (@eet_setter_rejected_leaves_state float float64 float64_externals
           (-1)%float (Sample.airy_state Sample.interior_load) eq_refl).
Defined.

(** C4 with two workers. *)
Lemma worker_count_invariance_witness :
  let s := Sample.flexure_state 1 Sample.point_load in
  snd (@update float float64 float64_externals (with_self (set_n_procs 2) s))
    = snd (@update float float64 float64_externals
             (with_self (set_n_procs 1) s)) /\
  heap (fst (@update float float64 float64_externals
               (with_self (set_n_procs 2) s)))
    = heap (fst (@update float float64 float64_externals
                   (with_self (set_n_procs 1) s))).
Proof.
  exact (proj2 (proj2 (@worker_count_invariance float float64
                         float64_externals 2 (le_S 1 1 (le_n 1))))
           (Sample.flexure_state 1 Sample.point_load)).
Defined.

(** Two workers and one worker on the docstring's point load. *)
Example two_workers_point_load :
  heap (fst (@update float float64 float64_externals
               (Sample.flexure_state 2 Sample.point_load))) !! 1
  = heap (fst (@update float float64 float64_externals
                 (Sample.flexure_state 1 Sample.point_load))) !! 1.
Proof. vm_compute. reflexivity. Qed.

Lemma real_state_alpha :
  @alpha R real_num real_externals (self Sample.real_state)
  = inr Sample.real_alpha.
Proof.
  unfold alpha, Sample.real_alpha; simpl. unfold flexure_parameter; simpl.
  destruct (Rle_dec 1 0) as [Hle|_]; [lra | reflexivity].
Qed.

(** C1 over the reals: [subside_loads(load)] on a 2 x 2 grid. *)
Lemma flexure_deflection_witness :
  exists s' l deflection,
    @subside_loads R real_num real_externals 0 None Sample.real_state
      = (s', inr l) /\
    heap s' !! l = Some deflection /\
    length deflection = 2 * 2 /\
    forall qi qj, qi < 2 -> qj < 2 ->
      deflection !! (qi * 2 + qj) =
      Some (@spec_deflection R real_num [1; 0; 0; 2]%R 1%R 1%R
              Sample.real_alpha (1 * 1)%R (_r (self Sample.real_state))
              2 2 (qi, qj)).
Proof.
  exact (@flexure_deflection_is_kernel_sum R real_num real_externals
           real_exact Sample.real_state 0 None [1; 0; 0; 2]%R
           Sample.real_alpha (le_S 1 1 (le_n 1)) real_state_alpha
           eq_refl eq_refl I).
Defined.

(** C5 on the sample component: [flex.eet = 30e3] returns and the table
    is the one of the new value. *)
Lemma kernel_rebuilt_witness :
  let s := Sample.flexure_state 1 Sample.point_load in
  _eet (self (fst (@eet_setter float float64 float64_externals 30e3%float s)))
    = 30e3%float /\
  @kernel_in_sync float float64 float64_externals
    (fst (@eet_setter float float64 float64_externals 30e3%float s)).
Proof.
  exact (proj1 (@kernel_rebuilt_with_eet float float64 float64_externals)
           30e3%float (Sample.flexure_state 1 Sample.point_load) eq_refl).
Defined.

(** The dispatcher of the specification on the sample component: the
    deflection field filled with 7.0 before
    [subside_loads(load, out=deflection)]. *)
Lemma output_independent_witness :
  let s := Sample.flexure_state 1 Sample.point_load in
  let s' := with_heap (insert 1 (replicate 20 7%float)) s in
  @subside_loads float float64 float64_externals 0 (Some 1) s'
    = @subside_loads float float64 float64_externals 0 (Some 1) s /\
  heap (fst (@subside_loads float float64 float64_externals 0 (Some 1) s)) !! 1
    = heap (fst (@subside_loads float float64 float64_externals 0 None s))
        !! fresh (dom (heap s)).
Proof.
  intros s s'.
  eapply (proj2 (@output_independent_of_prior_contents float float64
                   float64_externals) s s' 0 1 Sample.point_load
            (replicate 20 0%float) (replicate 20 7%float)).
  - apply le_n.
  - vm_compute. reflexivity.
  - vm_compute. reflexivity.
  - vm_compute. reflexivity.
  - apply same_but_write.
  - vm_compute. reflexivity.
  - vm_compute. reflexivity.
  - vm_compute. reflexivity.
  - vm_compute. reflexivity.
  - vm_compute. reflexivity.
Defined.

(** C8 on the sample grid: [Flexure(grid, method="bogus")]. *)
Lemma unsupported_method_witness :
  let s := @Sample.fresh_state float float64 1.0e4%float Sample.point_load in
  @Flexure_init float float64 float64_externals
    65e3%float 7e10%float "bogus" 3300.0%float 9.80665%float 1 s
  = (s, inl (ValueError "bogus: method not understood")).
Proof.
  intros s.
  apply (proj2 (@unsupported_method_iff float float64 float64_externals
                  65e3%float 7e10%float "bogus" 3300.0%float 9.80665%float
                  1 s)).
  intros Hin. apply list_elem_of_In in Hin. simpl in Hin.
  destruct Hin as [Heq|[Heq|[]]]; discriminate.
Defined.

(** C9 on the sample grid: [Flexure(grid, eet=0.0)] and [flex.eet = 0.0]
    are refused, [flex.eet = 30e3] returns. *)
Lemma eet_validation_witness :
  let s := Sample.airy_state Sample.interior_load in
  snd (@eet_setter float float64 float64_externals 0%float s)
    = inl InvalidParameter /\
  snd (@Flexure_init float float64 float64_externals
         0%float 7e10%float "airy" 3300.0%float 9.80665%float 1 s)
    = inl InvalidParameter /\
  snd (@eet_setter float float64 float64_externals 30e3%float s) = inr tt.
Proof.
  intros s.
  destruct (proj1 (@eet_validation float float64 float64_externals
                     0%float 7e10%float "airy" 3300.0%float 9.80665%float
                     1 s) eq_refl) as [Hset Hinit].
  destruct (proj2 (@eet_validation float float64 float64_externals
                     30e3%float 7e10%float "airy" 3300.0%float 9.80665%float
                     1 s) eq_refl) as (_ & _ & Hok & _).
  split; [exact Hset | split].
  - apply Hinit. apply list_elem_of_here.
  - eapply Hok. vm_compute. reflexivity.
Defined.

(** ** Runs on binary64 *)

(** The sample components are constructed without error. *)
Example sample_constructed :
  snd (Sample.construct "airy" 1 Sample.interior_load) = inr tt /\
  snd (Sample.construct "flexure" 2 Sample.point_load) = inr tt.
Proof. split; vm_compute; reflexivity. Qed.

(** Airy, a load of 1e9 Pa at node 4: the deflection is
    [1e9 / (3300 * 9.80665)] there and 0 elsewhere. *)
Example airy_point_load :
  heap (fst (@update float float64 float64_externals
               (Sample.airy_state Sample.point_load))) !! 1
  = Some (<[4 := (1e9 / (3300.0 * 9.80665))%float]> (replicate 20 0%float)).
Proof. vm_compute. reflexivity. Qed.

(** Flexure, the same load: on binary64 too the field that [update] leaves
    is the sum of the specification at every node. *)
Example flexure_point_load_formula :
  let s := Sample.flexure_state 2 Sample.point_load in
  match @alpha float float64 float64_externals (self s) with
  | inr a =>
      heap (fst (@update float float64 float64_externals s)) !! 1
      = Some (map (@spec_deflection float float64 Sample.point_load
                     (dx (grid s)) (dy (grid s)) a
                     (@gamma_mantle float float64 (self s)) (_r (self s)) 5 4)
                  (@nodes 5 4))
  | inl _ => False
  end.
Proof. vm_compute. reflexivity. Qed.

(** A failed construction leaves the grid without the output field. *)
Example bogus_method_touches_nothing :
  let s := @Sample.fresh_state float float64 1.0e4%float Sample.point_load in
  at_node (grid (fst (@Flexure_init float float64 float64_externals
                        65e3%float 7e10%float "bogus" 3300.0%float
                        9.80665%float 1 s))) !! deflection_name = None /\
  at_node (grid (fst (Sample.construct "airy" 1 Sample.point_load)))
    !! deflection_name = Some 1.
Proof. split; vm_compute; reflexivity. Qed.

(** * Further properties of the component *)

(** ** Failures of [update] *)

Section UpdateFailures.
Context {F : Type} `{Num F} `{Externals F}.
Implicit Types (s : State F) (l : loc).

Lemma subside_into_failure
    (dispatch : list (list F) -> list (list F) -> list (list F) ->
                F -> F -> nat -> list (list F))
    (buf : list F) l s (e : exn) :
  snd (subside_into dispatch buf l s) = inl e ->
  fst (subside_into dispatch buf l s) = s.
Proof.
  unfold subside_into.
  destruct (reshape _ (default [] _)) as [e1|dz]; [reflexivity |].
  destruct (reshape _ buf) as [e2|ld]; [reflexivity |].
  destruct (alpha (self s)) as [e3|a]; [reflexivity | discriminate].
Qed.

(** [update] on a grid that lacks the load field, or has it and lacks the
    deflection field, raises the field error for that name and writes
    nothing. *)
Theorem update_missing_field s :
  (at_node (grid s) !! load_name = None ->
   update s = (s, inl (FieldError load_name))) /\
  (is_Some (at_node (grid s) !! load_name) ->
   at_node (grid s) !! deflection_name = None ->
   update s = (s, inl (FieldError deflection_name))).
Proof.
  split.
  - apply update_via_no_load.
  - intros [ll Hll] Hdl. unfold update, update_via. run_st.
    rewrite Hll. simpl. now rewrite Hdl.
Qed.

(** When [update] raises on a grid that has both fields, the deflection
    field is left filled with zeros: the field is zeroed before either
    method runs, and neither method writes it before it fails. *)
Theorem failed_update_leaves_zeros s (ll dl : loc) (old : list F) (e : exn) :
  at_node (grid s) !! load_name = Some ll ->
  at_node (grid s) !! deflection_name = Some dl ->
  heap s !! dl = Some old ->
  snd (update s) = inl e ->
  heap (fst (update s)) !! dl = Some (replicate (length old) Fzero).
Proof.
  intros Hll Hdl Hold. unfold update.
  rewrite (update_via_unfold _ s ll dl Hll Hdl). cbv zeta.
  rewrite Hold. simpl.
  destruct (String.eqb (_method (self s)) "airy").
  - rewrite assign_all_unfold. cbv zeta.
    destruct (decide _) as [?|?]; [discriminate |].
    destruct (decide _) as [?|?]; [discriminate |].
    intros _. simpl. apply lookup_insert_eq.
  - match goal with
    | |- context [subside_into ?d ?b dl ?s0] =>
        pose proof (subside_into_failure d b dl s0) as Hfail;
        destruct (subside_into d b dl s0) as [s1 [e1|l1]]
    end; [|discriminate].
    intros _. simpl in *. rewrite (Hfail e1 eq_refl). simpl.
    apply lookup_insert_eq.
Qed.
End UpdateFailures.

(** [update] on a load field of three entries over the 5 x 4 grid. *)
Lemma failed_update_leaves_zeros_witness :
  heap (fst (@update float float64 float64_externals
               Cases.short_load_state)) !! 1
  = Some (replicate (length (replicate 20 0%float)) 0%float).
Proof.
  apply (@failed_update_leaves_zeros float float64 float64_externals
           Cases.short_load_state 0 1 (replicate 20 0%float) ShapeError).
  - vm_compute. reflexivity.
  - vm_compute. reflexivity.
  - vm_compute. reflexivity.
  - vm_compute. reflexivity.
Defined.

(** ** Repeated and unrelated runs of the Airy method *)

Section AiryMore.
Context {F : Type} `{Num F} `{Externals F}.
Implicit Types (s : State F) (l : loc).

(** With the Airy method and the two fields in different arrays, a second
    [update] on an unchanged load gives the state the first one gave:
    nothing of a solve is carried into the next. *)
Theorem airy_update_twice s (ll dl : loc) (load old : list F) :
  _method (self s) = "airy" ->
  at_node (grid s) !! load_name = Some ll ->
  at_node (grid s) !! deflection_name = Some dl ->
  ll <> dl ->
  heap s !! ll = Some load ->
  heap s !! dl = Some old ->
  length old = length load ->
  update (fst (update s)) = update s.
Proof.
  intros Hm Hll Hdl Hne Hload Hold Hlen.
  rewrite (update_airy s ll dl load old) by assumption. simpl.
  set (v := map (fun x => Fdiv x (gamma_mantle (self s))) load).
  rewrite (update_airy (with_heap (insert dl v) s) ll dl load v); simpl;
    try assumption.
  - f_equal. apply state_eq; simpl; [reflexivity | reflexivity |].
    apply insert_insert_eq.
  - now rewrite lookup_insert_ne by congruence.
  - apply lookup_insert_eq.
  - unfold v. apply length_map.
Qed.

(** With the Airy method, [update] reads neither the elastic thickness,
    nor Young's modulus, nor the number of workers, nor the kernel table:
    changing them changes neither its result nor the arrays it leaves. *)
Theorem airy_ignores_plate_attributes s (v youngs : F) (n : nat)
    (K : list (list F)) :
  _method (self s) = "airy" ->
  let s' :=
    with_self
      (fun o => set_r K (set_n_procs n (set_youngs youngs (set_eet v o)))) s in
  snd (update s') = snd (update s) /\
  heap (fst (update s')) = heap (fst (update s)).
Proof.
  intros Hm s'. unfold update.
  destruct (at_node (grid s) !! load_name) as [ll|] eqn:Hll.
  2:{ rewrite !update_via_no_load by exact Hll. auto. }
  destruct (at_node (grid s) !! deflection_name) as [dl|] eqn:Hdl.
  2:{ unfold update_via. run_st. rewrite Hll. simpl. rewrite Hdl. auto. }
  rewrite (update_via_unfold _ s ll dl Hll Hdl).
  rewrite (update_via_unfold _ s' ll dl Hll Hdl).
  cbv zeta. simpl. rewrite Hm. simpl.
  rewrite !assign_all_unfold. simpl.
  change (gamma_mantle (set_r K _)) with (gamma_mantle (self s)).
  destruct (decide _); [auto | destruct (decide _); auto].
Qed.
End AiryMore.

(** A second [update] on the docstring's interior load. *)
Lemma airy_update_twice_witness :
  let s := Sample.airy_state Sample.interior_load in
  @update float float64 float64_externals
    (fst (@update float float64 float64_externals s))
  = @update float float64 float64_externals s.
Proof.
  apply (@airy_update_twice float float64 float64_externals
           (Sample.airy_state Sample.interior_load) 0 1
           Sample.interior_load (replicate 20 0%float)).
  - vm_compute. reflexivity.
  - vm_compute. reflexivity.
  - vm_compute. reflexivity.
  - discriminate.
  - vm_compute. reflexivity.
  - vm_compute. reflexivity.
  - reflexivity.
Defined.

(** The Airy result after [eet], [youngs], [n_procs] and the table are
    replaced. *)
Lemma airy_ignores_plate_attributes_witness :
  let s := Sample.airy_state Sample.interior_load in
  let s' :=
    with_self
      (fun o => set_r [] (set_n_procs 8 (set_youngs 1%float
                                           (set_eet 10%float o)))) s in
  snd (@update float float64 float64_externals s')
    = snd (@update float float64 float64_externals s) /\
  heap (fst (@update float float64 float64_externals s'))
    = heap (fst (@update float float64 float64_externals s)).
Proof.
  apply (@airy_ignores_plate_attributes float float64 float64_externals
           (Sample.airy_state Sample.interior_load) 10%float 1%float 8 []).
  vm_compute. reflexivity.
Defined.

(** ** More on the [eet] setter *)

Section SetterMore.
Context {F : Type} `{Num F} `{Externals F}.
Implicit Types (s : State F) (v w : F).

(** Whether it returns or raises, an assignment to [eet] leaves the grid,
    every array and every attribute other than [eet] and the kernel table
    as they were. *)
Theorem eet_setter_writes_eet_and_table v s :
  let s' := fst (eet_setter v s) in
  grid s' = grid s /\ heap s' = heap s /\
  Flexure_youngs (self s') = Flexure_youngs (self s) /\
  Flexure_method (self s') = Flexure_method (self s) /\
  Flexure_rho_mantle (self s') = Flexure_rho_mantle (self s) /\
  Flexure_gravity (self s') = Flexure_gravity (self s) /\
  _n_procs (self s') = _n_procs (self s).
Proof.
  rewrite eet_setter_unfold. destruct (Fleb v Fzero); simpl; [tauto |].
  destruct (alpha (set_eet v (self s))); simpl; tauto.
Qed.

(** The setter stores the value before it asks for the flexural parameter:
    when the parameter model raises for an accepted value, the call raises
    with the new [eet] stored and the kernel table of the previous one. *)
Theorem eet_setter_parameter_failure v s :
  Fleb v Fzero = false ->
  get_flexure_parameter v (_youngs (self s)) 2 (gamma_mantle (self s)) = None ->
  eet_setter v s = (with_self (set_eet v) s, inl ParameterError) /\
  Flexure_eet (self (fst (eet_setter v s))) = v /\
  _r (self (fst (eet_setter v s))) = _r (self s).
Proof.
  intros Hv Hnone. rewrite eet_setter_unfold, Hv. unfold alpha. simpl.
  change (gamma_mantle (set_eet v (self s))) with (gamma_mantle (self s)).
  rewrite Hnone. auto.
Qed.

(** Of two successive assignments the second decides: when the first
    returned and the second value is accepted by the check and by the
    parameter model, the state is the one the second assignment alone
    gives. *)
Theorem eet_setter_last_wins v w s (a : F) :
  snd (eet_setter v s) = inr tt ->
  Fleb w Fzero = false ->
  get_flexure_parameter w (_youngs (self s)) 2 (gamma_mantle (self s))
    = Some a ->
  eet_setter w (fst (eet_setter v s)) = eet_setter w s.
Proof.
  intros Hfirst Hw Ha. destruct (eet_setter_accepted w s Hw) as (_ & _ & Hok).
  rewrite (Hok a Ha). revert Hfirst.
  rewrite (eet_setter_unfold v s). destruct (Fleb v Fzero); [discriminate |].
  destruct (alpha (set_eet v (self s))) as [e|b]; [discriminate |].
  intros _. simpl. rewrite eet_setter_unfold, Hw. unfold alpha. simpl.
  change (gamma_mantle _) with (gamma_mantle (self s)).
  rewrite Ha. reflexivity.
Qed.

(** The stored [eet] never fails the setter's check: construction that
    returns stores such a value, an assignment stores one or none, and
    the solvers store nothing. *)
Theorem eet_stays_positive :
  (forall (eet youngs : F) (method : string) (rho gravity : F) (n : nat) s,
     snd (Flexure_init eet youngs method rho gravity n s) = inr tt ->
     eet_positive (fst (Flexure_init eet youngs method rho gravity n s))) /\
  (forall v s, eet_positive s -> eet_positive (fst (eet_setter v s))) /\
  (forall s, eet_positive s -> eet_positive (fst (update s))) /\
  (forall s (loads : loc) (out : option loc),
     eet_positive s -> eet_positive (fst (subside_loads loads out s))).
Proof.
  unfold eet_positive. split; [|split; [|split]].
  - intros eet youngs method rho gravity n s Hok.
    destruct (Flexure_init_in_sync eet youngs method rho gravity n s Hok)
      as [Heet _].
    rewrite Heet.
    destruct (decide (method ∈ ["airy"; "flexure"])) as [Hm|Hm].
    + pose proof (Flexure_init_outcomes eet youngs method rho gravity n s Hm)
        as Hout. simpl in Hout. rewrite Hok in Hout.
      destruct Hout as [[_ Hout]|[(Hv & _)|(Hv & _)]];
        [discriminate | exact Hv | exact Hv].
    + rewrite Flexure_init_unsupported in Hok by exact Hm. discriminate.
  - intros v s Hs. rewrite eet_setter_unfold.
    destruct (Fleb v Fzero) eqn:Hv; [exact Hs |].
    destruct (alpha (set_eet v (self s))); exact Hv.
  - intros s Hs.
    destruct (at_node (grid s) !! deflection_name) as [dl|] eqn:Hdl.
    + destruct (update_via_frame subside_grid_in_parallel s dl Hdl)
        as (Hself & _). unfold update. now rewrite Hself.
    + unfold update. now rewrite update_via_no_deflection.
  - intros s loads out Hs.
    pose proof (subside_loads_via_frame subside_grid_in_parallel loads out s)
      as Hfr. unfold subside_loads.
    destruct out as [l|]; [|destruct Hfr as [_ Hfr]];
      destruct Hfr as (Hself & _); now rewrite Hself.
Qed.
End SetterMore.

(** [flex.eet = 30e3] on a component whose Young's modulus is negative. *)
Lemma eet_setter_parameter_failure_witness :
  let s := Cases.negative_youngs_state in
  @eet_setter float float64 float64_externals 30e3%float s
    = (with_self (set_eet 30e3%float) s, inl ParameterError) /\
  Flexure_eet (self (fst (@eet_setter float float64 float64_externals
                            30e3%float s))) = 30e3%float /\
  _r (self (fst (@eet_setter float float64 float64_externals 30e3%float s)))
    = _r (self s).
Proof.
  apply (@eet_setter_parameter_failure float float64 float64_externals
           30e3%float Cases.negative_youngs_state).
  - vm_compute. reflexivity.
  - vm_compute. reflexivity.
Defined.

(** [flex.eet = 30e3] followed by [flex.eet = 65e3]. *)
Lemma eet_setter_last_wins_witness :
  let s := Sample.airy_state Sample.interior_load in
  @eet_setter float float64 float64_externals 65e3%float
    (fst (@eet_setter float float64 float64_externals 30e3%float s))
  = @eet_setter float float64 float64_externals 65e3%float s.
Proof.
  eapply (@eet_setter_last_wins float float64 float64_externals
            30e3%float 65e3%float (Sample.airy_state Sample.interior_load)).
  - vm_compute. reflexivity.
  - vm_compute. reflexivity.
  - vm_compute. reflexivity.
Defined.

(** ** More on construction *)

Section InitMore.
Context {F : Type} `{Num F} `{Externals F}.
Implicit Types (s : State F) (method : string).

Lemma initialize_output_fields_with_self (f : Flexure F -> Flexure F) s :
  fst (initialize_output_fields (with_self f s))
  = with_self f (fst (initialize_output_fields s)).
Proof.
  unfold initialize_output_fields. simpl.
  destruct (at_node (grid s) !! deflection_name); reflexivity.
Qed.

(** The state a successful construction reaches, in one expression. *)
Lemma Flexure_init_success (eet youngs : F) method (rho gravity : F)
    (n : nat) s (a : F) :
  method ∈ ["airy"; "flexure"] ->
  Fleb eet Fzero = false ->
  get_flexure_parameter eet youngs 2 (Fmul rho gravity) = Some a ->
  Flexure_init eet youngs method rho gravity n s =
  (with_self
     (fun _ =>
        built eet youngs method rho gravity n
          (create_kei_func_grid (shape (grid s)) (dy (grid s), dx (grid s)) a))
     (fst (initialize_output_fields s)),
   inr tt).
Proof.
  intros Hm Hv Ha. rewrite Flexure_init_supported by exact Hm.
  rewrite eet_setter_unfold, Hv.
  set (o := set_eet eet (first_attributes youngs method rho gravity (self s))).
  assert (Halpha : alpha o = inr a).
  { unfold alpha, o. simpl.
    change (gamma_mantle _) with (Fmul rho gravity). now rewrite Ha. }
  change (alpha (set_eet eet _)) with (alpha o). rewrite Halpha.
  rewrite rebuild_kernel_unfold, !initialize_output_fields_with_self.
  destruct (initialize_output_fields_spec s)
    as (_ & Hself & Hshape & Hdy & Hdx).
  simpl. rewrite Hself. change (alpha _) with (alpha o). rewrite Halpha.
  rewrite Hshape, Hdy, Hdx. reflexivity.
Qed.

(** A construction that returns has stored its arguments: the read-only
    properties give them back, [gamma_mantle] is [rho_mantle * gravity],
    and the stored method is one of the two recognised ones. *)
Theorem constructor_stores_arguments (eet youngs : F) method (rho gravity : F)
    (n : nat) s :
  snd (Flexure_init eet youngs method rho gravity n s) = inr tt ->
  let o := self (fst (Flexure_init eet youngs method rho gravity n s)) in
  Flexure_eet o = eet /\ Flexure_youngs o = youngs /\
  Flexure_method o = method /\ Flexure_rho_mantle o = rho /\
  Flexure_gravity o = gravity /\ gamma_mantle o = Fmul rho gravity /\
  _n_procs o = n /\ method ∈ ["airy"; "flexure"].
Proof.
  intros Hok.
  destruct (decide (method ∈ ["airy"; "flexure"])) as [Hm|Hm].
  2:{ rewrite Flexure_init_unsupported in Hok by exact Hm. discriminate. }
  pose proof (Flexure_init_outcomes eet youngs method rho gravity n s Hm)
    as Hout. simpl in Hout. rewrite Hok in Hout.
  destruct Hout as [[_ Hout]|[(_ & _ & Hout)|(Hv & [a Ha] & _)]];
    [discriminate | discriminate |].
  rewrite (Flexure_init_success eet youngs method rho gravity n s a)
    by assumption.
  simpl. repeat split; try reflexivity. exact Hm.
Qed.

(** A construction that raises, for whatever reason, leaves the grid and
    every array as they were: the output field is created only after the
    method and [eet] have been accepted and the table has been built. *)
Theorem failed_construction_touches_nothing
    (eet youngs : F) method (rho gravity : F) (n : nat) s (e : exn) :
  snd (Flexure_init eet youngs method rho gravity n s) = inl e ->
  grid (fst (Flexure_init eet youngs method rho gravity n s)) = grid s /\
  heap (fst (Flexure_init eet youngs method rho gravity n s)) = heap s.
Proof.
  intros Hfail.
  destruct (decide (method ∈ ["airy"; "flexure"])) as [Hm|Hm].
  2:{ rewrite Flexure_init_unsupported by exact Hm. auto. }
  pose proof (Flexure_init_outcomes eet youngs method rho gravity n s Hm)
    as Hout. simpl in Hout. rewrite Hfail in Hout.
  clear Hfail. rewrite Flexure_init_supported by exact Hm.
  rewrite eet_setter_unfold.
  destruct Hout as [[Hv _]|[(Hv & Hnone & _)|(_ & _ & Hout)]].
  - rewrite Hv. simpl. auto.
  - rewrite Hv.
    set (o := set_eet eet
                (first_attributes youngs method rho gravity (self s))).
    assert (Halpha : alpha o = inl ParameterError).
    { unfold alpha, o. simpl.
      change (gamma_mantle _) with (Fmul rho gravity). now rewrite Hnone. }
    change (alpha (set_eet eet _)) with (alpha o).
    rewrite Halpha. simpl. auto.
  - discriminate.
Qed.

(** A construction that returns leaves the shape, the spacing, every field
    the grid had and every array that existed as they were; the grid then
    has the output field, which, when it was missing, is a new array of
    zeros with one entry per node. *)
Theorem construction_adds_output_field
    (eet youngs : F) method (rho gravity : F) (n : nat) s :
  snd (Flexure_init eet youngs method rho gravity n s) = inr tt ->
  let s' := fst (Flexure_init eet youngs method rho gravity n s) in
  shape (grid s') = shape (grid s) /\
  dy (grid s') = dy (grid s) /\ dx (grid s') = dx (grid s) /\
  (forall name l, at_node (grid s) !! name = Some l ->
                  at_node (grid s') !! name = Some l) /\
  (forall l, is_Some (heap s !! l) -> heap s' !! l = heap s !! l) /\
  (exists dl, at_node (grid s') !! deflection_name = Some dl /\
     (at_node (grid s) !! deflection_name = None ->
      heap s !! dl = None /\
      heap s' !! dl = Some (replicate (number_of_nodes (grid s)) Fzero))).
Proof.
  intros Hok.
  destruct (decide (method ∈ ["airy"; "flexure"])) as [Hm|Hm].
  2:{ rewrite Flexure_init_unsupported in Hok by exact Hm. discriminate. }
  pose proof (Flexure_init_outcomes eet youngs method rho gravity n s Hm)
    as Hout. simpl in Hout. rewrite Hok in Hout.
  destruct Hout as [[_ Hout]|[(_ & _ & Hout)|(Hv & [a Ha] & _)]];
    [discriminate | discriminate |].
  rewrite (Flexure_init_success eet youngs method rho gravity n s a)
    by assumption.
  simpl. unfold initialize_output_fields, number_of_nodes.
  destruct (at_node (grid s) !! deflection_name) as [dl|] eqn:Hdl; simpl.
  - repeat split; auto. exists dl. split; [exact Hdl | discriminate].
  - assert (Hfresh : heap s !! fresh (dom (heap s)) = None)
      by apply not_elem_of_dom, is_fresh.
    repeat split; auto.
    + intros name l Hname. rewrite lookup_insert_ne; [exact Hname |].
      intros <-. congruence.
    + intros l [x Hx]. rewrite lookup_insert_ne; [reflexivity |].
      intros <-. congruence.
    + exists (fresh (dom (heap s))). split; [apply lookup_insert_eq |].
      intros _. split; [exact Hfresh | apply lookup_insert_eq].
Qed.

(** [Flexure(grid, method="airy")] followed by [update()], on a grid that
    has a load field with one entry per node and no output field: both
    return, the new output field holds the load divided by
    [rho_mantle * gravity], and the load field holds what it held. *)
Theorem construct_then_update_airy (eet youngs rho gravity : F) (n : nat)
    s (ll : loc) (load : list F) (a : F) :
  at_node (grid s) !! load_name = Some ll ->
  at_node (grid s) !! deflection_name = None ->
  heap s !! ll = Some load ->
  length load = number_of_nodes (grid s) ->
  Fleb eet Fzero = false ->
  get_flexure_parameter eet youngs 2 (Fmul rho gravity) = Some a ->
  exists s1 s2 dl,
    Flexure_init eet youngs "airy" rho gravity n s = (s1, inr tt) /\
    update s1 = (s2, inr tt) /\
    at_node (grid s2) !! deflection_name = Some dl /\
    heap s2 !! dl = Some (map (fun x => Fdiv x (Fmul rho gravity)) load) /\
    heap s2 !! ll = Some load.
Proof.
  intros Hll Hdl Hload Hlen Hv Ha.
  assert (Hm : "airy" ∈ ["airy"; "flexure"]) by apply list_elem_of_here.
  rewrite (Flexure_init_success eet youngs "airy" rho gravity n s a)
    by assumption.
  unfold initialize_output_fields. rewrite Hdl. simpl.
  set (dl := fresh (dom (heap s))).
  assert (Hfresh : heap s !! dl = None) by apply not_elem_of_dom, is_fresh.
  assert (Hne : dl <> ll) by congruence.
  match goal with
  | |- exists s1 s2 dl0, (?st, _) = _ /\ _ => set (s1 := st)
  end.
  assert (Hup : update s1 =
            (with_heap
               (insert dl (map (fun x => Fdiv x (gamma_mantle (self s1))) load))
               s1, inr tt)).
  { apply (update_airy s1 ll dl load
             (replicate (fst (shape (grid s)) * snd (shape (grid s))) Fzero)).
    - reflexivity.
    - unfold s1; simpl. rewrite lookup_insert_ne; [exact Hll |].
      intros Heq. unfold load_name, deflection_name in Heq. discriminate.
    - unfold s1; simpl. apply lookup_insert_eq.
    - unfold s1; simpl. now rewrite lookup_insert_ne.
    - unfold s1; simpl. apply lookup_insert_eq.
    - rewrite length_replicate. symmetry. exact Hlen. }
  exists s1, (with_heap
                (insert dl (map (fun x => Fdiv x (gamma_mantle (self s1))) load))
                s1), dl.
  split; [reflexivity | split; [exact Hup | split; [|split]]].
  - simpl. apply lookup_insert_eq.
  - simpl. apply lookup_insert_eq.
  - simpl. rewrite !lookup_insert_ne by exact Hne. exact Hload.
Qed.
End InitMore.

(** [Flexure(grid)] on the docstring's grid. *)
Lemma constructor_stores_arguments_witness :
  let o := self (fst (Sample.construct "flexure" 2 Sample.point_load)) in
  Flexure_eet o = 65e3%float /\ Flexure_youngs o = 7e10%float /\
  Flexure_method o = "flexure" /\ Flexure_rho_mantle o = 3300.0%float /\
  Flexure_gravity o = 9.80665%float /\
  @gamma_mantle float float64 o = (3300.0 * 9.80665)%float /\
  _n_procs o = 2 /\ "flexure" ∈ ["airy"; "flexure"].
Proof.
  apply (@constructor_stores_arguments float float64 float64_externals
           65e3%float 7e10%float "flexure" 3300.0%float 9.80665%float 2
           (@Sample.fresh_state float float64 1.0e4%float Sample.point_load)).
  vm_compute. reflexivity.
Defined.

(** [Flexure(grid, eet=-1.0)] on the docstring's grid. *)
Lemma failed_construction_witness :
  let s := @Sample.fresh_state float float64 1.0e4%float Sample.point_load in
  let r := @Flexure_init float float64 float64_externals
             (-1)%float 7e10%float "airy" 3300.0%float 9.80665%float 1 s in
  grid (fst r) = grid s /\ heap (fst r) = heap s.
Proof.
  apply (@failed_construction_touches_nothing float float64 float64_externals
           (-1)%float 7e10%float "airy" 3300.0%float 9.80665%float 1
           (@Sample.fresh_state float float64 1.0e4%float Sample.point_load)
           InvalidParameter).
  vm_compute. reflexivity.
Defined.

(** [Flexure(grid)] on the docstring's grid, which has no output field. *)
Lemma construction_adds_output_field_witness :
  let s := @Sample.fresh_state float float64 1.0e4%float Sample.point_load in
  let s' := fst (Sample.construct "airy" 1 Sample.point_load) in
  shape (grid s') = shape (grid s) /\
  dy (grid s') = dy (grid s) /\ dx (grid s') = dx (grid s) /\
  (forall name l, at_node (grid s) !! name = Some l ->
                  at_node (grid s') !! name = Some l) /\
  (forall l, is_Some (heap s !! l) -> heap s' !! l = heap s !! l) /\
  (exists dl, at_node (grid s') !! deflection_name = Some dl /\
     (at_node (grid s) !! deflection_name = None ->
      heap s !! dl = None /\
      heap s' !! dl
      = Some (replicate (@number_of_nodes float (grid s)) 0%float))).
Proof.
  apply (@construction_adds_output_field float float64 float64_externals
           65e3%float 7e10%float "airy" 3300.0%float 9.80665%float 1
           (@Sample.fresh_state float float64 1.0e4%float Sample.point_load)).
  vm_compute. reflexivity.
Defined.

(** The docstring's session: [Flexure(grid)], then [update()]. *)
Lemma construct_then_update_airy_witness :
  let s := @Sample.fresh_state float float64 1.0e4%float
             Sample.interior_load in
  exists s1 s2 dl,
    @Flexure_init float float64 float64_externals
      65e3%float 7e10%float "airy" 3300.0%float 9.80665%float 1 s
      = (s1, inr tt) /\
    @update float float64 float64_externals s1 = (s2, inr tt) /\
    at_node (grid s2) !! deflection_name = Some dl /\
    heap s2 !! dl
      = Some (map (fun x => (x / (3300.0 * 9.80665))%float)
                  Sample.interior_load) /\
    heap s2 !! 0 = Some Sample.interior_load.
Proof.
  eapply (@construct_then_update_airy float float64 float64_externals
            65e3%float 7e10%float 3300.0%float 9.80665%float 1
            (@Sample.fresh_state float float64 1.0e4%float
               Sample.interior_load) 0 Sample.interior_load).
  - vm_compute. reflexivity.
  - vm_compute. reflexivity.
  - vm_compute. reflexivity.
  - vm_compute. reflexivity.
  - vm_compute. reflexivity.
  - vm_compute. reflexivity.
Defined.

(** ** More on [subside_loads] and on the Airy method *)

Section SubsideMore.
Context {F : Type} `{Num F} `{Externals F}.
Implicit Types (s : State F) (l : loc).

(** [subside_loads] reshapes both arrays to the grid's shape before it
    computes anything: when the output array or the load array does not
    have one entry per node, it raises the shape error and writes
    nothing. *)
Theorem subside_loads_rejects_wrong_sizes
    s (loads out : loc) (loads_buf out_buf : list F) :
  heap s !! loads = Some loads_buf ->
  heap s !! out = Some out_buf ->
  length out_buf <> number_of_nodes (grid s) \/
  length loads_buf <> number_of_nodes (grid s) ->
  subside_loads loads (Some out) s = (s, inl ShapeError).
Proof.
  intros Hloads Hout Hbad. rewrite subside_loads_Some.
  unfold subside_into, reshape, number_of_nodes in *.
  rewrite Hloads, Hout. simpl.
  destruct (decide (length out_buf = _)) as [Ho|Ho]; [|reflexivity].
  destruct (decide (length loads_buf = _)) as [Hl|Hl]; [|reflexivity].
  destruct Hbad; contradiction.
Qed.

Lemma subside_into_returns
    (dispatch : list (list F) -> list (list F) -> list (list F) ->
                F -> F -> nat -> list (list F))
    (buf : list F) l s (l' : loc) :
  snd (subside_into dispatch buf l s) = inr l' ->
  l' = l /\ is_Some (heap (fst (subside_into dispatch buf l s)) !! l).
Proof.
  unfold subside_into.
  destruct (reshape _ (default [] _)) as [e1|dz]; [discriminate |].
  destruct (reshape _ buf) as [e2|ld]; [discriminate |].
  destruct (alpha (self s)) as [e3|a]; [discriminate |]. simpl.
  intros Heq. split; [congruence |].
  rewrite lookup_insert_eq. eauto.
Qed.

(** When [subside_loads] returns, it returns the array it was given as
    [out], or, given none, an array that did not exist before the call;
    in both cases the returned array is in the store. *)
Theorem subside_loads_returns_out s (loads : loc) (out : option loc) (l : loc) :
  snd (subside_loads loads out s) = inr l ->
  match out with
  | Some o => l = o
  | None => heap s !! l = None
  end /\
  is_Some (heap (fst (subside_loads loads out s)) !! l).
Proof.
  destruct out as [o|].
  - rewrite subside_loads_Some. intros Hret.
    destruct (subside_into_returns _ _ _ _ _ Hret) as [-> Hin]. auto.
  - rewrite subside_loads_None. cbv zeta. intros Hret.
    destruct (subside_into_returns _ _ _ _ _ Hret) as [-> Hin].
    split; [apply not_elem_of_dom, is_fresh | exact Hin].
Qed.

(** With the Airy method and a divisor [gamma_mantle] for which
    [0 / gamma_mantle] is [0], an all-zero load gives an all-zero
    deflection field. *)
Theorem airy_zero_load s (ll dl : loc) (load old : list F) :
  _method (self s) = "airy" ->
  at_node (grid s) !! load_name = Some ll ->
  at_node (grid s) !! deflection_name = Some dl ->
  heap s !! ll = Some load ->
  heap s !! dl = Some old ->
  length old = length load ->
  Forall (fun x => x = Fzero) load ->
  Fdiv Fzero (gamma_mantle (self s)) = Fzero ->
  update s = (with_heap (insert dl (replicate (length load) Fzero)) s, inr tt).
Proof.
  intros Hm Hll Hdl Hload Hold Hlen Hzero Hdiv.
  rewrite (update_airy s ll dl load old) by assumption.
  do 3 f_equal. clear Hload Hlen.
  induction Hzero as [|x load -> _ IH]; simpl; [reflexivity |].
  now rewrite Hdiv, IH.
Qed.
End SubsideMore.

(** [subside_loads] on a load array of three entries. *)
Lemma subside_loads_rejects_witness :
  @subside_loads float float64 float64_externals 0 (Some 1)
    Cases.short_load_state
  = (Cases.short_load_state, inl ShapeError).
Proof.
  apply (@subside_loads_rejects_wrong_sizes float float64 float64_externals
           Cases.short_load_state 0 1 [1; 2; 3]%float (replicate 20 0%float)).
  - vm_compute. reflexivity.
  - vm_compute. reflexivity.
  - right. vm_compute. discriminate.
Defined.

(** [subside_loads(load)] without an output array on the sample grid. *)
Lemma subside_loads_returns_out_witness :
  let s := Sample.flexure_state 1 Sample.point_load in
  heap s !! 2 = None /\
  is_Some (heap (fst (@subside_loads float float64 float64_externals
                        0 None s)) !! 2).
Proof.
  apply (@subside_loads_returns_out float float64 float64_externals
           (Sample.flexure_state 1 Sample.point_load) 0 None 2).
  vm_compute. reflexivity.
Defined.

(** The docstring's first [update()], on the all-zero load. *)
Lemma airy_zero_load_witness :
  @update float float64 float64_externals Cases.zero_load_state
  = (with_heap (insert 1 (replicate (length (replicate 20 0%float)) 0%float))
       Cases.zero_load_state, inr tt).
Proof.
  apply (@airy_zero_load float float64 float64_externals
           Cases.zero_load_state 0 1 (replicate 20 0%float)
           (replicate 20 0%float)).
  - vm_compute. reflexivity.
  - vm_compute. reflexivity.
  - vm_compute. reflexivity.
  - vm_compute. reflexivity.
  - vm_compute. reflexivity.
  - reflexivity.
  - apply Forall_replicate. reflexivity.
  - vm_compute. reflexivity.
Defined.

(** [update()] on the docstring's grid before a component has added the
    output field. *)
Lemma update_missing_field_witness :
  let s := @Sample.fresh_state float float64 1.0e4%float Sample.point_load in
  @update float float64 float64_externals s
  = (s, inl (FieldError deflection_name)).
Proof.
  apply (proj2 (@update_missing_field float float64 float64_externals
                  (@Sample.fresh_state float float64 1.0e4%float
                     Sample.point_load))).
  - exists 0. vm_compute. reflexivity.
  - vm_compute. reflexivity.
Defined.

(** The stored [eet] after [flex.eet = -1.0] and after [flex.eet = 30e3]. *)
Lemma eet_stays_positive_witness :
  let s := Sample.airy_state Sample.interior_load in
  @eet_positive float float64
    (fst (@eet_setter float float64 float64_externals (-1)%float s)) /\
  @eet_positive float float64
    (fst (@eet_setter float float64 float64_externals 30e3%float s)).
Proof.
  assert (Hs : @eet_positive float float64
                 (Sample.airy_state Sample.interior_load))
    by (vm_compute; reflexivity).
  split;
    apply (proj1 (proj2 (@eet_stays_positive float float64
                           float64_externals))); exact Hs.
Defined.

(** ** Where the output array is zeroed *)

Section Zeroing.
Context {F : Type} `{Num F} `{Externals F}.
Implicit Types (s : State F) (l : loc).


End Zeroing.


